(** * A step-through Dijkstra search with undo: model of [dijkstra.composable.ts]

    The composable [useDijkstra] keeps a search state, advances it by one
    micro-step per call of [next], and steps back with [prev] through the
    history recorded by [useRefHistory].  The development embeds the
    composable as pure functions on an explicit [Composable] value and
    proves the properties its specification lists. *)

From Stdlib Require Import ZArith Lia.
From stdpp Require Import strings gmap list.

(** ** Numbers

    A TypeScript [number] is modelled by the values the search can meet:
    integers (which stand for the doubles that represent them exactly),
    [Infinity] and [NaN].  The cost of an edge is an integer of either
    sign.

    Sums of integers are exact here; sums of doubles are exact as long as
    the operands and the result are integers of magnitude at most
    [MAX_SAFE_INTEGER], and round or overflow beyond.  Every property below
    that depends on the value of a sum is therefore stated for graphs with
    [safe_costs], for which [sums_stay_safe] shows that no distance and no
    sum formed by [next] leaves that range.  There is no minus infinity: a
    sum of doubles reaches it only by overflow, from costs below -10^307. *)

Inductive number : Type :=
  | Fin (z : Z)
  | Infinity
  | NaN.

#[global] Instance number_eq_dec : EqDecision number.
Proof. solve_decision. Defined.

(** [a < b] on numbers: false as soon as one side is [NaN]. *)
Definition number_lt (a b : number) : bool :=
  match a, b with
  | Fin x, Fin y => bool_decide (x < y)%Z
  | Fin _, Infinity => true
  | _, _ => false
  end.

(** [a + b] on numbers, exact on integers; no operand is ever minus
    infinity. *)
Definition number_add (a b : number) : number :=
  match a, b with
  | NaN, _ | _, NaN => NaN
  | Fin x, Fin y => Fin (x + y)
  | _, _ => Infinity
  end.

(** What a slot of the [distances] object can hold: a number, or the [null]
    that a JSON round trip leaves in place of [Infinity]. *)
Inductive slot : Type :=
  | Num (n : number)
  | Null.

#[global] Instance slot_eq_dec : EqDecision slot.
Proof. solve_decision. Defined.

(** Reading a property gives [None] for [undefined]. [v ?? d]: *)
Definition nullish (v : option slot) (d : number) : number :=
  match v with
  | Some (Num n) => n
  | Some Null | None => d
  end.

(** The numeric conversion applied by [<] and [+] to a raw property value:
    [null] converts to 0 and [undefined] to [NaN]. *)
Definition to_number (v : option slot) : number :=
  match v with
  | Some (Num n) => n
  | Some Null => Fin 0
  | None => NaN
  end.

(** ** Data model *)

Abbreviation Id := string (only parsing).

Record Edge : Type := mkEdge { from : Id; to : Id; cost : Z }.

#[global] Instance Edge_eq_dec : EqDecision Edge.
Proof. solve_decision. Defined.

Record Vertice : Type := mkVertice { id : Id }.

(** [vertices] lists the properties of the [Record<Id, Vertice>] in the order
    [Object.keys] enumerates them. *)
Record Graph : Type := mkGraph {
  vertices : list (Id * Vertice);
  edges : list Edge
}.

Definition Object_keys {A} (r : list (Id * A)) : list Id := r.*1.

Record DijkstraState : Type := mkState {
  unvisted : list Id;
  distances : gmap Id slot;
  previous : gmap Id (option Id);
  currentVertex : option Id;
  currentEdge : option Edge;
  edgesLeft : list Edge;
  isDone : bool
}.

Definition set_unvisted (v : list Id) (s : DijkstraState) : DijkstraState :=
  mkState v (distances s) (previous s) (currentVertex s) (currentEdge s)
          (edgesLeft s) (isDone s).
Definition set_distances (v : gmap Id slot) (s : DijkstraState) : DijkstraState :=
  mkState (unvisted s) v (previous s) (currentVertex s) (currentEdge s)
          (edgesLeft s) (isDone s).
Definition set_previous (v : gmap Id (option Id)) (s : DijkstraState) : DijkstraState :=
  mkState (unvisted s) (distances s) v (currentVertex s) (currentEdge s)
          (edgesLeft s) (isDone s).
Definition set_currentVertex (v : option Id) (s : DijkstraState) : DijkstraState :=
  mkState (unvisted s) (distances s) (previous s) v (currentEdge s)
          (edgesLeft s) (isDone s).
Definition set_currentEdge (v : option Edge) (s : DijkstraState) : DijkstraState :=
  mkState (unvisted s) (distances s) (previous s) (currentVertex s) v
          (edgesLeft s) (isDone s).
Definition set_edgesLeft (v : list Edge) (s : DijkstraState) : DijkstraState :=
  mkState (unvisted s) (distances s) (previous s) (currentVertex s)
          (currentEdge s) v (isDone s).
Definition set_isDone (v : bool) (s : DijkstraState) : DijkstraState :=
  mkState (unvisted s) (distances s) (previous s) (currentVertex s)
          (currentEdge s) (edgesLeft s) v.

(** [Number.MAX_SAFE_INTEGER], 2^53 - 1. *)
Definition MAX_SAFE_INTEGER : Z := 9007199254740991.

(** ** Plain objects as records

    [distances] and [previous] are plain objects.  A [gmap] holds the own
    properties of such an object; what the object inherits from
    [Object.prototype] shows when a key that is no own property is read
    or assigned. *)

(** The property names of [Object.prototype]. *)
Definition Object_prototype : list Id :=
  [ "__proto__"; "constructor"; "hasOwnProperty"; "isPrototypeOf";
    "propertyIsEnumerable"; "toLocaleString"; "toString"; "valueOf";
    "__defineGetter__"; "__defineSetter__"; "__lookupGetter__";
    "__lookupSetter__" ]%string.

(** [distances[key]] as [next] reads it: the own property if there is one;
    otherwise the member inherited under a name of [Object.prototype],
    which is an object (the prototype itself under ['__proto__'], a
    function under the other names); otherwise [undefined].  [next] uses
    the value only as an operand of [+] and [<], where an object met with
    a number is not a number, so the inherited member is read as [NaN].
    (Only an edge from one unrecorded name of [Object.prototype] to
    another would have two objects compared by their texts; by
    [examined_edge_recorded] no reachable state examines such an edge.) *)
Definition get (obj : gmap Id slot) (key : Id) : option slot :=
  match obj !! key with
  | Some v => Some v
  | None => if bool_decide (key ∈ Object_prototype) then Some (Num NaN) else None
  end.

(** [obj[key] = value] for a number or a string [value]: an own property is
    created or overwritten, except that under ['__proto__'], when the
    object has no own property of that name, the assignment reaches the
    setter inherited from [Object.prototype], which drops a value that is
    neither an object nor [null]: nothing is stored. *)
Definition assign {A} (key : Id) (value : A) (obj : gmap Id A) : gmap Id A :=
  match obj !! key with
  | Some _ => <[key := value]> obj
  | None => if bool_decide (key = "__proto__"%string) then obj
            else <[key := value]> obj
  end.

(** ** [initDijkstra] *)

Definition initDistances (graph : Graph) (start : Id) : gmap Id slot :=
  assign start (Num (Fin 0))
    (foldl (λ distances id, assign id (Num Infinity) distances) ∅
           (Object_keys (vertices graph))).

(** The literal [{ [start]: null }] defines an own property whatever the
    name. *)
Definition initDijkstra (graph : Graph) (start : Id) : DijkstraState :=
  {| unvisted := Object_keys (vertices graph);
     distances := initDistances graph start;
     previous := {[ start := None ]};
     currentVertex := None;
     currentEdge := None;
     edgesLeft := [];
     isDone := false |}.

(** ** The history kept by [useRefHistory] *)

(** Modelled from the spec: [useRefHistory] (imported from [@vueuse/core]) is
    not part of the sources.  Following the History Manager of the
    specification, a snapshot is a deep copy made through a serialization
    that cannot represent infinity: a distance that is not a finite number
    is stored as [null]. *)
Definition json_slot (v : slot) : slot :=
  match v with
  | Num (Fin z) => Num (Fin z)
  | Num Infinity | Num NaN | Null => Null
  end.

(** Modelled from the spec: the deep copy of a whole search state; every
    field but [distances] holds strings, booleans, integers and [null], which
    the copy preserves. *)
Definition snapshot (s : DijkstraState) : DijkstraState :=
  set_distances (json_slot <$> distances s) s.

(** Modelled from the spec: the undo stack of [useRefHistory].
    [lastRecord] is the snapshot of the current state, [undoStack] the
    snapshots below it (most recent first), and [tracking] tells whether
    changes made outside [batch] are recorded ([pause] and [resume] switch
    it). *)
Record History : Type := mkHistory {
  lastRecord : DijkstraState;
  undoStack : list DijkstraState;
  tracking : bool
}.

(** The value returned by [useDijkstra]: the refs [start], [end], [graph]
    and [state], with the history attached to [state]. *)
Record Composable : Type := mkComposable {
  start : Id;
  end_ : Id;
  graph : Graph;
  state : DijkstraState;
  history : History
}.

Definition set_state (s : DijkstraState) (c : Composable) : Composable :=
  mkComposable (start c) (end_ c) (graph c) s (history c).
Definition set_history (h : History) (c : Composable) : Composable :=
  mkComposable (start c) (end_ c) (graph c) (state c) h.

(** Modelled from the spec: [commit] archives the record of the state that
    was current and takes a snapshot of the new one. *)
Definition commit (c : Composable) : Composable :=
  set_history
    {| lastRecord := snapshot (state c);
       undoStack := lastRecord (history c) :: undoStack (history c);
       tracking := tracking (history c) |} c.

(** Modelled from the spec: [batch fn] runs the mutations of [fn] as one
    update and records exactly one snapshot for them. *)
Definition batch (fn : DijkstraState → DijkstraState) (c : Composable) : Composable :=
  commit (set_state (fn (state c)) c).

(** Modelled from the spec: a mutation made outside [batch] is seen by the
    synchronous deep watcher, which records it unless tracking is paused. *)
Definition watched (fn : DijkstraState → DijkstraState) (c : Composable) : Composable :=
  let c' := set_state (fn (state c)) c in
  if tracking (history c) then commit c' else c'.

(** Modelled from the spec: [undo] pops the most recent archived snapshot and
    restores a copy of it as the current state; with nothing archived it
    does nothing. *)
Definition undo (c : Composable) : Composable :=
  match undoStack (history c) with
  | [] => c
  | record :: rest =>
      mkComposable (start c) (end_ c) (graph c) (snapshot record)
        {| lastRecord := record; undoStack := rest;
           tracking := tracking (history c) |}
  end.

(** Modelled from the spec: [clear] empties the undo stack. *)
Definition clear (c : Composable) : Composable :=
  set_history
    {| lastRecord := lastRecord (history c); undoStack := [];
       tracking := tracking (history c) |} c.

(** Modelled from the spec: [pause] and [resume] switch the recording of
    changes made outside [batch] off and on; neither records anything. *)
Definition pause (c : Composable) : Composable :=
  set_history
    {| lastRecord := lastRecord (history c);
       undoStack := undoStack (history c); tracking := false |} c.

Definition resume (c : Composable) : Composable :=
  set_history
    {| lastRecord := lastRecord (history c);
       undoStack := undoStack (history c); tracking := true |} c.

(** ** [useDijkstra] *)

Definition useDijkstra (initGraph : Graph) (initStart initEnd : Id) : Composable :=
  let s := initDijkstra initGraph initStart in
  {| start := initStart; end_ := initEnd; graph := initGraph; state := s;
     history := {| lastRecord := snapshot s; undoStack := []; tracking := true |} |}.

(** [array.includes(x)] *)
Definition includes (l : list Id) (x : Id) : bool := bool_decide (x ∈ l).

(** One round of the [for (const id of unvisted)] loop of [next]; the
    accumulator is the pair of [minimal] and [minimalCost], the latter being
    the raw property value the loop stores in it. *)
Definition scan_step (dist : gmap Id slot) (acc : Id * option slot) (v : Id)
    : Id * option slot :=
  if number_lt (nullish (get dist v) Infinity) (to_number acc.2)
  then (v, get dist v)
  else acc.

Definition scan (dist : gmap Id slot) (unvisted : list Id) : Id * option slot :=
  foldl (scan_step dist) (""%string, Some (Num Infinity)) unvisted.

(** The callback of [graph.edges.map] in [next]. *)
Definition normalize (minimal : Id) (edge : Edge) : Edge :=
  if decide (to edge = minimal)
  then {| from := minimal; to := from edge; cost := cost edge |}
  else edge.

Definition connections (g : Graph) (minimal : Id) (unvisted : list Id) : list Edge :=
  filter (λ edge, from edge = minimal ∧ includes unvisted (to edge) = true)
         (normalize minimal <$> edges g).

Definition is_null {A} (o : option A) : bool :=
  match o with None => true | Some _ => false end.

(** [next]: one micro-step; the boolean is the returned done signal. *)
Definition next (c : Composable) : Composable * bool :=
  let s := state c in
  (* 1. check if we are done *)
  if negb (includes (unvisted s) (end_ c)) then
    ((if negb (isDone s)
      then batch (λ s, set_currentVertex None (set_isDone true s)) c
      else c), true)
  (* 2. select current if null and set up the connections to check *)
  else if is_null (currentVertex s) then
    let unvisted_copy := unvisted s in
    let minimal := (scan (distances s) unvisted_copy).1 in
    let conns := connections (graph c) minimal unvisted_copy in
    (batch (λ s, set_unvisted (filter (λ u, u ≠ minimal) (unvisted s))
                   (set_edgesLeft conns
                      (set_currentVertex (Some minimal) s))) c, false)
  (* 3. check if an edge needs to be checked *)
  else if bool_decide (length (edgesLeft s) = 0%nat) && is_null (currentEdge s) then
    (batch (set_currentVertex None) c, false)
  else match currentEdge s with
  (* 4. select target if null *)
  | None =>
      let target := head (edgesLeft s) in
      (batch (λ s, set_edgesLeft (drop 1 (edgesLeft s))
                     (set_currentEdge target s)) c, false)
  (* 5. check distance to target and update it *)
  | Some edge =>
      let currentCost := to_number (get (distances s) (from edge)) in
      let nextCost := nullish (get (distances s) (to edge)) Infinity in
      if number_lt (number_add currentCost (Fin (cost edge))) nextCost then
        (batch (λ s, set_currentEdge None
                       (set_previous (assign (to edge) (Some (from edge)) (previous s))
                          (set_distances
                             (assign (to edge)
                                (Num (number_add currentCost (Fin (cost edge))))
                                (distances s)) s))) c, false)
      else
        (batch (set_currentEdge None) c, false)
  end.

(** [reset] *)
Definition reset (newGraph : Graph) (newStart newEnd : Id) (c : Composable) : Composable :=
  clear (watched (λ _, initDijkstra newGraph newStart)
           (mkComposable newStart newEnd newGraph (state c) (history c))).

(** [prev]; the keys are those of own properties, which the assignment in
    the loop overwrites. *)
Definition prev (c : Composable) : Composable :=
  let c1 := pause (undo c) in
  let keys := (map_to_list (distances (state c1))).*1 in
  resume
    (foldl (λ c key,
              if bool_decide (distances (state c) !! key = Some Null)
              then watched (λ s, set_distances (<[key := Num Infinity]> (distances s)) s) c
              else c)
           c1 keys).

(** Repeated calls. *)
Fixpoint nexts (k : nat) (c : Composable) : Composable :=
  match k with
  | O => c
  | S k' => nexts k' (next c).1
  end.

Fixpoint prevs (k : nat) (c : Composable) : Composable :=
  match k with
  | O => c
  | S k' => prevs k' (prev c)
  end.

(** The graph of the demo page. *)
Definition defaultGraph : Graph :=
  {| edges := [ mkEdge "A" "B" 2; mkEdge "A" "C" 1; mkEdge "B" "C" 3;
                mkEdge "B" "D" 2; mkEdge "C" "D" 8; mkEdge "C" "E" 3 ];
     vertices := [ ("A", mkVertice "A"); ("B", mkVertice "B"); ("C", mkVertice "C");
                   ("D", mkVertice "D"); ("E", mkVertice "E") ] |}%string.

(** The recorded distance of a vertex, [distances[v] ?? Infinity] on the own
    properties. *)
Definition dist_of (s : DijkstraState) (v : Id) : number :=
  nullish (distances s !! v) Infinity.

(** States reachable from the initial snapshot by calls of [next]. *)
Inductive reachable (g : Graph) (st en : Id) : Composable → Prop :=
  | reachable_init : reachable g st en (useDijkstra g st en)
  | reachable_next c : reachable g st en c → reachable g st en (next c).1.

(** ** Vocabulary of the properties *)

(** [a <= b] on numbers. *)
Definition number_le (a b : number) : bool :=
  match a, b with
  | Fin x, Fin y => bool_decide (x ≤ y)%Z
  | Fin _, Infinity | Infinity, Infinity => true
  | _, _ => false
  end.

(** Every slot holds a finite number or [Infinity]: neither [NaN] nor the
    [null] of a serialized snapshot. *)
Definition clean (d : gmap Id slot) : Prop :=
  ∀ k v, d !! k = Some v → v = Num Infinity ∨ ∃ z, v = Num (Fin z).

(** The discipline of the phases, strengthened so that [next] preserves it:
    an edge is examined only during an expansion and before [end] is
    finalized; edges are left only during an expansion or after the end. *)
Definition phase_ok (c : Composable) : Prop :=
  (currentEdge (state c) ≠ None →
   currentVertex (state c) ≠ None ∧ end_ c ∈ unvisted (state c)) ∧
  (edgesLeft (state c) ≠ [] →
   currentVertex (state c) ≠ None ∨ isDone (state c) = true).

(** A path A - B - C. *)
Definition pathGraph : Graph :=
  {| edges := [ mkEdge "A" "B" 1; mkEdge "B" "C" 1 ];
     vertices := [ ("A", mkVertice "A"); ("B", mkVertice "B");
                   ("C", mkVertice "C") ] |}%string.

(** The candidate edges in the words of the specification: an edge whose [to]
    is the chosen vertex is reversed, an edge whose [from] is the chosen
    vertex is kept, and in both cases only if the far endpoint is unvisited. *)
Definition touching_edges (g : Graph) (chosen : Id) (unvisted : list Id) : list Edge :=
  omap (λ edge,
          if decide (to edge = chosen) then
            if includes unvisted (from edge)
            then Some {| from := chosen; to := from edge; cost := cost edge |}
            else None
          else if decide (from edge = chosen) then
            if includes unvisted (to edge) then Some edge else None
          else None)
       (edges g).

(** Two vertices and no edge. *)
Definition isolatedGraph : Graph :=
  {| edges := [];
     vertices := [ ("A", mkVertice "A"); ("B", mkVertice "B") ] |}%string.

(** The value found under the empty identifier adds up to nothing finite:
    [distances['']] is missing, [Infinity] or [NaN]. *)
Definition inert (s : DijkstraState) : Prop :=
  number_lt (to_number (distances s !! ""%string)) Infinity = false.

(** The situation the search cannot leave: [end] is unvisited, no unvisited
    vertex has a distance below [Infinity], and the engine is either about
    to select a frontier or busy expanding the empty identifier. *)
Definition stuck (c : Composable) : Prop :=
  end_ c ∈ unvisted (state c) ∧
  (∀ u, u ∈ unvisted (state c) → dist_of (state c) u = Infinity) ∧
  (""%string ∉ unvisted (state c)) ∧
  inert (state c) ∧
  ((currentVertex (state c) = None ∧ currentEdge (state c) = None) ∨
   (currentVertex (state c) = Some ""%string ∧
    (∀ e, e ∈ edgesLeft (state c) → from e = ""%string) ∧
    (∀ e, currentEdge (state c) = Some e → from e = ""%string))).

(** The edges that the fallback to the empty identifier leaves to examine:
    those whose normalized [from] is the empty identifier and whose [to] is
    unvisited. *)
Definition fallback_edges (g : Graph) (unvisted : list Id) : list Edge :=
  filter (λ edge, from edge = ""%string ∧ to edge ∈ unvisted)
         (normalize "" <$> edges g).

(** A graph in which the empty identifier is a vertex: A - '' and an
    isolated B. *)
Definition emptyVertexGraph : Graph :=
  {| edges := [ mkEdge "A" "" 1 ];
     vertices := [ ("A", mkVertice "A"); ("", mkVertice "");
                   ("B", mkVertice "B") ] |}%string.

(** A graph with a vertex named ['__proto__'], joined to B. *)
Definition protoGraph : Graph :=
  {| edges := [ mkEdge "__proto__" "B" 1 ];
     vertices := [ ("__proto__", mkVertice "__proto__");
                   ("B", mkVertice "B") ] |}%string.

(** An edge A - B and an edge that leaves from the empty identifier, which
    is not among the vertices. *)
Definition danglingGraph : Graph :=
  {| edges := [ mkEdge "" "A" 1; mkEdge "A" "B" 1 ];
     vertices := [ ("A", mkVertice "A"); ("B", mkVertice "B") ] |}%string.

(** What keeps the entries of [st] in place: they hold their initial values,
    no pending edge leads to [st], and as long as [st] is unvisited nothing
    has been expanded and [st] alone has a distance below [Infinity]. *)
Definition start_inv (st : Id) (s : DijkstraState) : Prop :=
  distances s !! st = Some (Num (Fin 0)) ∧
  previous s !! st = Some None ∧
  (∀ e, e ∈ edgesLeft s → to e ≠ st) ∧
  (∀ e, currentEdge s = Some e → to e ≠ st) ∧
  (st ∈ unvisted s →
   currentEdge s = None ∧ edgesLeft s = [] ∧
   ∀ u, u ∈ unvisted s → u ≠ st → dist_of s u = Infinity).

(** What the loop of [prev] does to one slot. *)
Definition denull (v : slot) : slot :=
  match v with
  | Null => Num Infinity
  | Num n => Num n
  end.

(** The loop of [prev] seen on the [distances] object alone. *)
Definition denull_keys (keys : list Id) (d : gmap Id slot) : gmap Id slot :=
  foldl (λ d key, if bool_decide (d !! key = Some Null)
                  then <[key := Num Infinity]> d else d) d keys.

(** The history after some calls of [next] and [prev]: nothing above the
    record of the initial snapshot has been lost, and at most [n] records
    lie on the undo stack. *)
Definition hist_inv (g : Graph) (st en : Id) (n : nat) (c : Composable) : Prop :=
  start c = st ∧ end_ c = en ∧ graph c = g ∧
  length (undoStack (history c)) ≤ n ∧
  (c = useDijkstra g st en ∨
   ∃ l, undoStack (history c) = l ++ [snapshot (initDijkstra g st)]).

(** ** One micro-step as a relation on search states *)

(** The five branches of [next], with the conditions under which each one
    runs; [step g en s s' done] relates a state to the state and the signal
    that [next] produces from it for the graph [g] and the target [en].
    The conditions of the relax step are spelled out on the own properties
    of [distances]: the test succeeds only on values it reads from own
    properties, and fails on a target that is an unrecorded name of
    [Object.prototype]. *)
Inductive step (g : Graph) (en : Id) (s : DijkstraState) : DijkstraState → bool → Prop :=
  | step_finish :
      en ∉ unvisted s → isDone s = false →
      step g en s (set_currentVertex None (set_isDone true s)) true
  | step_finished :
      en ∉ unvisted s → isDone s = true →
      step g en s s true
  | step_select :
      en ∈ unvisted s → currentVertex s = None →
      step g en s
        (set_unvisted
           (filter (λ u, u ≠ (scan (distances s) (unvisted s)).1) (unvisted s))
           (set_edgesLeft
              (connections g (scan (distances s) (unvisted s)).1 (unvisted s))
              (set_currentVertex (Some (scan (distances s) (unvisted s)).1) s)))
        false
  | step_expanded v :
      en ∈ unvisted s → currentVertex s = Some v →
      edgesLeft s = [] → currentEdge s = None →
      step g en s (set_currentVertex None s) false
  | step_dequeue v e l :
      en ∈ unvisted s → currentVertex s = Some v →
      edgesLeft s = e :: l → currentEdge s = None →
      step g en s (set_edgesLeft l (set_currentEdge (Some e) s)) false
  | step_relax v e :
      en ∈ unvisted s → currentVertex s = Some v → currentEdge s = Some e →
      number_lt (number_add (to_number (distances s !! from e)) (Fin (cost e)))
                (nullish (distances s !! to e) Infinity) = true →
      (to e ∈ Object_prototype → is_Some (distances s !! to e)) →
      step g en s
        (set_currentEdge None
           (set_previous (assign (to e) (Some (from e)) (previous s))
              (set_distances
                 (<[to e := Num (number_add (to_number (distances s !! from e))
                                            (Fin (cost e)))]> (distances s)) s)))
        false
  | step_keep v e :
      en ∈ unvisted s → currentVertex s = Some v → currentEdge s = Some e →
      number_lt (number_add (to_number (distances s !! from e)) (Fin (cost e)))
                (nullish (distances s !! to e) Infinity) = false ∨
      (to e ∈ Object_prototype ∧ distances s !! to e = None) →
      step g en s (set_currentEdge None s) false.

(** ** Walks in the graph *)

(** The search follows every edge in both directions. *)
Definition touches (e : Edge) (u w : Id) : Prop :=
  (from e = u ∧ to e = w) ∨ (to e = u ∧ from e = w).

(** [walk g st v k]: some sequence of edges of [g], each taken in either
    direction, leads from [st] to [v] and its costs add up to [k]. *)
Inductive walk (g : Graph) (st : Id) : Id → Z → Prop :=
  | walk_start : walk g st st 0
  | walk_edge v w k e :
      walk g st v k → e ∈ edges g → touches e v w →
      walk g st w (k + cost e).

(** An edge waiting in [edgesLeft] or under examination in [currentEdge]. *)
Definition pending (s : DijkstraState) (e : Edge) : Prop :=
  e ∈ edgesLeft s ∨ currentEdge s = Some e.

(** [leads g unv w]: from the empty identifier, a sequence of edges of [g],
    each taken in either direction, leads to [w] through vertices of [unv]
    only. *)
Inductive leads (g : Graph) (unv : list Id) : Id → Prop :=
  | leads_start : leads g unv ""
  | leads_edge v w e :
      leads g unv v → e ∈ edges g → touches e v w → w ∈ unv →
      leads g unv w.

(** A search gone astray after a fallback to the empty identifier, [unv]
    being the vertices that were unvisited at the fallback: [end] is still
    unvisited, and whatever has got a distance below [Infinity] since, or
    is being expanded, is led to from the empty identifier. *)
Definition astray (g : Graph) (en : Id) (unv : list Id) (s : DijkstraState) : Prop :=
  en ∈ unvisted s ∧
  (∀ u, u ∈ unvisted s → u ∈ unv) ∧
  (""%string ∉ unvisted s) ∧
  (∀ u, u ∈ unvisted s → number_lt (dist_of s u) Infinity = true → leads g unv u) ∧
  (currentVertex s = None → currentEdge s = None) ∧
  (∀ v, currentVertex s = Some v →
        leads g unv v ∧
        ∀ e, pending s e →
             from e = v ∧ to e ∈ unv ∧
             ∃ e0, e0 ∈ edges g ∧ touches e0 (from e) (to e)).

(** ** The demo page *)

(** The computed list [visited] of the page: the vertices of the graph that
    are no longer in [unvisted]. *)
Definition visited (c : Composable) : list Id :=
  filter (λ v, includes (unvisted (state c)) v = false)
         (Object_keys (vertices (graph c))).

(** [runToEnd] of the page, [while (!state.value.isDone) next()], with a
    bound on the number of rounds; [None] when the bound is used up. *)
Fixpoint runToEnd (fuel : nat) (c : Composable) : option Composable :=
  if isDone (state c) then Some c
  else match fuel with
       | O => None
       | S fuel' => runToEnd fuel' (next c).1
       end.

(** ** Invariants of the search *)

(** Every pending edge is an edge of the graph, possibly reversed. *)
Definition pending_from_graph (g : Graph) (s : DijkstraState) : Prop :=
  ∀ e, pending s e →
       ∃ e0, e0 ∈ edges g ∧ touches e0 (from e) (to e) ∧ cost e0 = cost e.

(** Every finite distance is the cost of a walk from the start vertex. *)
Definition distances_sound (g : Graph) (st : Id) (s : DijkstraState) : Prop :=
  ∀ v z, distances s !! v = Some (Num (Fin z)) → walk g st v z.

(** Every endpoint of an edge is a vertex of the graph. *)
Definition well_formed (g : Graph) : Prop :=
  ∀ e, e ∈ edges g →
       from e ∈ Object_keys (vertices g) ∧ to e ∈ Object_keys (vertices g).

(** No edge has a negative cost. *)
Definition nonnegative (g : Graph) : Prop :=
  ∀ e, e ∈ edges g → (0 ≤ cost e)%Z.

(** Costs for which the sums of the search are exact in double arithmetic:
    every cost lies between 0 and [bound], and [bound] times the number of
    vertices plus one does not exceed [MAX_SAFE_INTEGER]. *)
Definition safe_costs (bound : Z) (g : Graph) : Prop :=
  (0 ≤ bound)%Z ∧
  (∀ e, e ∈ edges g → (0 ≤ cost e ≤ bound)%Z) ∧
  (bound * (Z.of_nat (length (Object_keys (vertices g))) + 1) ≤ MAX_SAFE_INTEGER)%Z.

(** No vertex bears the name of a member of [Object.prototype]. *)
Definition plain_names (g : Graph) : Prop :=
  ∀ v, v ∈ Object_keys (vertices g) → v ∉ Object_prototype.

(** The number of vertices that have left [unvisted]. *)
Definition finalized_count (g : Graph) (s : DijkstraState) : Z :=
  Z.of_nat (length (Object_keys (vertices g))) - Z.of_nat (length (unvisted s)).

(** What bounds the distances: a finalized vertex is at most
    [finalized_count] edges of cost [bound] away, any other at most one
    more; the vertex under expansion is finalized and, while the search is
    running, the pending edges lead from it to unvisited vertices or back
    to itself. *)
Record safe_inv (bound : Z) (g : Graph) (en : Id) (s : DijkstraState) : Prop := {
  sf_sub : unvisted s `sublist_of` Object_keys (vertices g);
  sf_fin : ∀ u z, distances s !! u = Some (Num (Fin z)) → u ∉ unvisted s →
                  (0 ≤ z ≤ bound * finalized_count g s)%Z;
  sf_all : ∀ u z, distances s !! u = Some (Num (Fin z)) →
                  (0 ≤ z ≤ bound * (finalized_count g s + 1))%Z;
  sf_cur : ∀ cur, currentVertex s = Some cur → cur ∉ unvisted s;
  sf_pend : en ∈ unvisted s → ∀ e, pending s e →
              currentVertex s = Some (from e) ∧
              (to e ∈ unvisted s ∨ to e = from e)
}.

(** A vertex of the graph that has left [unvisted]. *)
Definition finalized (g : Graph) (s : DijkstraState) (v : Id) : Prop :=
  v ∈ Object_keys (vertices g) ∧ v ∉ unvisted s.

(** What holds while the search is running, that is while [end] is still
    unvisited. *)
Record live_inv (g : Graph) (s : DijkstraState) : Prop := {
  (* finalized vertices are at most as far as unvisited ones *)
  li_order : ∀ u w, finalized g s u → w ∈ unvisted s →
                    number_le (dist_of s u) (dist_of s w) = true;
  (* the vertex under expansion is the farthest finalized one, unless it
     has nothing to expand *)
  li_current : ∀ cur, currentVertex s = Some cur →
                 (∀ u, finalized g s u →
                       number_le (dist_of s u) (dist_of s cur) = true) ∨
                 (edgesLeft s = [] ∧ currentEdge s = None);
  (* every edge at a finalized vertex is relaxed or still pending *)
  li_relaxed : ∀ u e0 w, finalized g s u → e0 ∈ edges g → touches e0 u w →
                 number_le (dist_of s w)
                           (number_add (dist_of s u) (Fin (cost e0))) = true ∨
                 (currentVertex s = Some u ∧
                  pending s {| from := u; to := w; cost := cost e0 |});
  (* pending edges leave from the vertex under expansion *)
  li_pending : ∀ e, pending s e → currentVertex s = Some (from e);
  li_phase : currentVertex s = None → currentEdge s = None
}.

(** The invariant of the search on a well-formed graph with non-negative
    costs and [plain_names]. *)
Record search_inv (g : Graph) (st en : Id) (s : DijkstraState) : Prop := {
  si_clean : clean (distances s);
  si_own : ∀ u, u ∈ Object_keys (vertices g) → is_Some (distances s !! u);
  si_unvisted : ∀ u, u ∈ unvisted s → u ∈ Object_keys (vertices g);
  si_start : number_le (dist_of s st) (Fin 0) = true;
  si_current : ∀ cur, currentVertex s = Some cur → cur ∉ unvisted s;
  si_pending : pending_from_graph g s;
  si_sound : distances_sound g st s;
  (* a finalized vertex is at most as far as any walk to it is long *)
  si_optimal : ∀ u k, finalized g s u → walk g st u k →
                      number_le (dist_of s u) (Fin k) = true;
  si_live : en ∈ unvisted s → live_inv g s
}.

(** What is left to do: a bound on the number of calls of [next] before it
    returns [true], as long as every selection finalizes a vertex. *)
Definition work_left (g : Graph) (s : DijkstraState) : nat :=
  length (unvisted s) * (2 * length (edges g) + 2)
  + 2 * length (edgesLeft s)
  + (if is_null (currentEdge s) then 0 else 1)
  + (if is_null (currentVertex s) then 0 else 1).

(** Following [previous] from a vertex back to the start: [tree_path g st s v z]
    holds when the chain of predecessors of [v] ends at [st], runs through
    vertices that have left [unvisted], every link is an edge of the graph
    between a vertex and its predecessor, and the costs add up to [z]. *)
Inductive tree_path (g : Graph) (st : Id) (s : DijkstraState) : Id → Z → Prop :=
  | tree_root :
      previous s !! st = Some None → tree_path g st s st 0
  | tree_link p v z e0 :
      tree_path g st s p z →
      previous s !! v = Some (Some p) → p ∉ unvisted s →
      e0 ∈ edges g → touches e0 p v →
      tree_path g st s v (z + cost e0).

(** Every finite distance is the cost of the chain of predecessors. *)
Definition tree_inv (g : Graph) (st : Id) (s : DijkstraState) : Prop :=
  previous s !! st = Some None ∧
  ∀ v z, distances s !! v = Some (Num (Fin z)) → tree_path g st s v z.

(** ** Sessions *)

(** The composables a page can hold: the one [useDijkstra] returns, and
    those that calls of [next], [prev] and [reset] make of it. *)
Inductive session : Composable → Prop :=
  | session_init g st en : session (useDijkstra g st en)
  | session_next c : session c → session (next c).1
  | session_prev c : session c → session (prev c)
  | session_reset g st en c : session c → session (reset g st en c).

(** The snapshot a forward run from the initial snapshot goes through. *)
Definition forward_state (g : Graph) (st en : Id) (s : DijkstraState) : Prop :=
  ∃ c, reachable g st en c ∧ state c = s.

(** The history of a session: changes are being recorded, the last record
    is the snapshot of the current state, and the current state as well as
    every archived record stem from the forward run for the current graph,
    start and end. *)
Definition history_inv (c : Composable) : Prop :=
  tracking (history c) = true ∧
  lastRecord (history c) = snapshot (state c) ∧
  forward_state (graph c) (start c) (end_ c) (state c) ∧
  Forall (λ r, ∃ s, forward_state (graph c) (start c) (end_ c) s ∧ r = snapshot s)
         (undoStack (history c)).

(** ** The renderer's view of the predecessors *)

(** [edgeKey] of the renderer: one key for both directions of an edge.  A
    string stands for the JavaScript string whose code units are the codes
    of its characters, so that the lexicographic comparison of characters
    is the comparison of code units that [<] makes. *)
Definition edgeKey (a b : Id) : string :=
  if String.ltb a b then a +:+ "|" +:+ b else b +:+ "|" +:+ a.

(** [buildShortestTreeEdges]: the keys of the links between a vertex and its
    predecessor; [None] stands for a missing [previous], and an entry whose
    value is [null] or the empty string is skipped by [if (p)]. *)
Definition buildShortestTreeEdges (previous : option (gmap Id (option Id)))
    : gset string :=
  match previous with
  | None => ∅
  | Some prev =>
      foldr (λ vp set,
               match vp.2 with
               | Some p => if bool_decide (p = ""%string) then set
                           else {[ edgeKey vp.1 p ]} ∪ set
               | None => set
               end)
            ∅ (map_to_list prev)
  end.

(** [isTreeEdge] of [drawGraph]. *)
Definition isTreeEdge (treeEdges : gset string) (e : Edge) : bool :=
  bool_decide (edgeKey (from e) (to e) ∈ treeEdges).

(** The loop of [buildPathEdgesFromEnd],
    [while (cur && previous[cur]) { add edgeKey(cur, p); cur = p }], with a
    bound on the number of rounds; [None] when the bound is used up.
    [previous[cur]] finds an own property or, under a name of
    [Object.prototype], the inherited member, an object on which the loop
    runs a round as well: the key is made of the text [printed cur] that the
    object converts to, and the next round looks [previous] up under that
    text.  The text of a function depends on the engine, hence the
    parameter. *)
Fixpoint path_loop (printed : Id → string) (fuel : nat)
    (prev : gmap Id (option Id)) (cur : Id)
    (pathEdges : gset string) : option (gset string) :=
  if bool_decide (cur = ""%string) then Some pathEdges
  else match prev !! cur with
       | Some (Some p) =>
           if bool_decide (p = ""%string) then Some pathEdges
           else match fuel with
                | O => None
                | S fuel' =>
                    path_loop printed fuel' prev p ({[ edgeKey cur p ]} ∪ pathEdges)
                end
       | Some None => Some pathEdges
       | None =>
           if bool_decide (cur ∈ Object_prototype) then
             match fuel with
             | O => None
             | S fuel' =>
                 path_loop printed fuel' prev (printed cur)
                           ({[ edgeKey cur (printed cur) ]} ∪ pathEdges)
             end
           else Some pathEdges
       end.

(** [buildPathEdgesFromEnd]: nothing without an [endId] or a [previous]. *)
Definition buildPathEdgesFromEnd (printed : Id → string) (fuel : nat)
    (endId : option Id) (previous : option (gmap Id (option Id)))
    : option (gset string) :=
  match endId, previous with
  | Some e, Some prev => path_loop printed fuel prev e ∅
  | _, _ => Some ∅
  end.
(** ** Basic facts about [next] *)

Lemma includes_true l x : includes l x = true ↔ x ∈ l.
Proof. unfold includes. apply bool_decide_eq_true. Qed.

Lemma includes_false l x : includes l x = false ↔ x ∉ l.
Proof. unfold includes. apply bool_decide_eq_false. Qed.

Lemma is_null_true {A} (o : option A) : is_null o = true ↔ o = None.
Proof. destruct o; simpl; split; congruence. Qed.

Lemma is_null_false {A} (o : option A) : is_null o = false ↔ o ≠ None.
Proof. destruct o; simpl; split; congruence. Qed.

(** ** Reading and assigning properties *)

Lemma get_own (d : gmap Id slot) k v : d !! k = Some v → get d k = Some v.
Proof. unfold get. by intros ->. Qed.

Lemma get_plain (d : gmap Id slot) k : k ∉ Object_prototype → get d k = d !! k.
Proof.
  intros Hk. unfold get. destruct (d !! k); [done|].
  by rewrite bool_decide_eq_false_2.
Qed.

Lemma get_member (d : gmap Id slot) k :
  d !! k = None → k ∈ Object_prototype → get d k = Some (Num NaN).
Proof. intros E Hk. unfold get. rewrite E. by rewrite bool_decide_eq_true_2. Qed.

Lemma get_empty (d : gmap Id slot) : get d ""%string = d !! ""%string.
Proof.
  apply get_plain. intros H. apply includes_true in H. vm_compute in H. done.
Qed.

(** A missing property never wins a comparison, whether it reads as
    [undefined] or as an inherited member. *)
Lemma nullish_get_lt (d : gmap Id slot) k x :
  number_lt (nullish (get d k) Infinity) x = number_lt (nullish (d !! k) Infinity) x.
Proof. unfold get. destruct (d !! k); [done|]. by case_bool_decide. Qed.

Lemma nullish_get_fin (d : gmap Id slot) k z :
  nullish (get d k) Infinity = Fin z → d !! k = Some (Num (Fin z)).
Proof.
  unfold get. destruct (d !! k) as [[n|]|]; simpl; try congruence.
  by case_bool_decide.
Qed.

Lemma to_number_get_fin (d : gmap Id slot) k z :
  to_number (get d k) = Fin z → get d k = d !! k ∧ to_number (d !! k) = Fin z.
Proof.
  unfold get. destruct (d !! k) as [v|]; [done|]. by case_bool_decide.
Qed.

Lemma lt_get_own (d : gmap Id slot) k x :
  number_lt (nullish (get d k) Infinity) x = true → get d k = d !! k.
Proof.
  unfold get. destruct (d !! k) as [v|]; [done|]. by case_bool_decide.
Qed.

Lemma assign_cases {A} k (v : A) (d : gmap Id A) :
  assign k v d = <[k := v]> d ∨
  (assign k v d = d ∧ k = "__proto__"%string ∧ d !! k = None).
Proof.
  unfold assign. destruct (d !! k) eqn:E; [by left|].
  case_bool_decide; [by right|by left].
Qed.

Lemma assign_insert {A} k (v : A) (d : gmap Id A) :
  k ≠ "__proto__"%string ∨ is_Some (d !! k) → assign k v d = <[k := v]> d.
Proof.
  intros H. destruct (assign_cases k v d) as [?|(_ & ? & E)]; [done|].
  destruct H as [?|[x Hx]]; [done|congruence].
Qed.

Lemma lookup_assign_ne {A} k k' (v : A) (d : gmap Id A) :
  k' ≠ k → assign k v d !! k' = d !! k'.
Proof.
  intros Hk. destruct (assign_cases k v d) as [->|[-> _]]; [|done].
  by rewrite lookup_insert_ne.
Qed.

Lemma lookup_assign {A} k k' (v x : A) (d : gmap Id A) :
  assign k v d !! k' = Some x → (k' = k ∧ x = v) ∨ d !! k' = Some x.
Proof.
  destruct (assign_cases k v d) as [->|[-> _]]; [|by right].
  destruct (decide (k' = k)) as [->|Hne].
  - rewrite lookup_insert_eq. intros [= <-]. by left.
  - rewrite lookup_insert_ne by done. by right.
Qed.

Lemma lookup_assign_proto {A} k (v : A) (d : gmap Id A) :
  d !! "__proto__"%string = None → assign k v d !! "__proto__"%string = None.
Proof.
  intros Hd. unfold assign. destruct (d !! k) eqn:E.
  - rewrite lookup_insert_ne; [done|]. intros ->. congruence.
  - case_bool_decide as Hk; [done|]. by rewrite lookup_insert_ne.
Qed.

(** What the test of the relax step tells when it succeeds: both ends of
    the edge are read from own properties, and the assignment of the new
    distance stores it. *)
Lemma number_lt_nan a : number_lt a NaN = false.
Proof. by destruct a. Qed.

Lemma relax_test_true (d : gmap Id slot) f t k :
  number_lt (number_add (to_number (get d f)) (Fin k)) (nullish (get d t) Infinity) = true →
  get d f = d !! f ∧ get d t = d !! t ∧
  (∀ v, assign t v d = <[t := v]> d).
Proof.
  intros Hlt.
  assert (Ht : t ∈ Object_prototype → is_Some (d !! t)).
  { intros Hin. destruct (d !! t) as [x|] eqn:E; [eauto|].
    rewrite (get_member d t E Hin) in Hlt.
    simpl in Hlt. by rewrite number_lt_nan in Hlt. }
  split_and!.
  - destruct (to_number (get d f)) as [x| |] eqn:E; try done.
    by apply to_number_get_fin in E as [? _].
  - unfold get. destruct (d !! t) as [v|] eqn:E; [done|].
    case_bool_decide as Hin; [|done]. destruct (Ht Hin) as [? ?]. congruence.
  - intros v. apply assign_insert.
    destruct (d !! t) as [x|] eqn:E; [right; eauto|]. left. intros ->.
    destruct Ht as [? ?]; [|congruence].
    apply includes_true. reflexivity.
Qed.

Ltac next_cases :=
  unfold next;
  repeat (case_match; simpl in * );
  repeat match goal with
    | H : negb _ = true |- _ => apply negb_true_iff in H
    | H : negb _ = false |- _ => apply negb_false_iff in H
    | H : _ && _ = true |- _ => apply andb_true_iff in H; destruct H
    | H : is_null _ = true |- _ => apply is_null_true in H
    | H : is_null _ = false |- _ => apply is_null_false in H
    | H : includes _ _ = true |- _ => apply includes_true in H
    | H : includes _ _ = false |- _ => apply includes_false in H
    end.

Lemma next_refs c :
  start (next c).1 = start c ∧ end_ (next c).1 = end_ c ∧ graph (next c).1 = graph c.
Proof. next_cases; done. Qed.

Lemma nexts_S k c : nexts (S k) c = (next (nexts k c)).1.
Proof. revert c. induction k as [|k IH]; intros c; [done|]. simpl in *. by rewrite IH. Qed.

Lemma reachable_nexts g st en k : reachable g st en (nexts k (useDijkstra g st en)).
Proof.
  induction k as [|k IH]; [constructor|].
  rewrite nexts_S. by constructor.
Qed.

Lemma reachable_refs g st en c :
  reachable g st en c → start c = st ∧ end_ c = en ∧ graph c = g.
Proof.
  induction 1 as [|c _ (? & ? & ?)]; [done|].
  destruct (next_refs c) as (-> & -> & ->). done.
Qed.

(** ** After termination *)

(** C8: once the search has terminated ([isDone] set, [end] no longer
    unvisited), every further call of [next] returns [true] and changes
    nothing, neither the snapshot nor the history, however often it is
    repeated. *)
Theorem next_after_termination c :
  isDone (state c) = true →
  end_ c ∉ unvisted (state c) →
  next c = (c, true) ∧ ∀ k, nexts k c = c ∧ (next (nexts k c)).2 = true.
Proof.
  intros Hdone Hend.
  assert (Hn : next c = (c, true)).
  { unfold next. apply includes_false in Hend. by rewrite Hend, Hdone. }
  split; [done|].
  induction k as [|k [IH1 IH2]]; simpl.
  - by rewrite Hn.
  - by rewrite Hn.
Qed.

Lemma next_after_termination_witness :
  let c := nexts 20 (useDijkstra defaultGraph "A" "D") in
  next c = (c, true).
Proof.
  intros c. apply (next_after_termination c).
  - vm_compute. reflexivity.
  - apply includes_false. vm_compute. reflexivity.
Defined.

(** ** The relax step *)

(** C10: when [next] runs its relax branch (the search is not over, a vertex
    is being expanded and [currentEdge] holds an edge), it returns [false],
    clears [currentEdge], and leaves [unvisted], [edgesLeft],
    [currentVertex], [isDone], the graph, [start], [end] and every entry of
    [distances] and [previous] other than the one of the edge's [to]
    unchanged, whether or not the distance improves. *)
Theorem relax_frame c v edge :
  end_ c ∈ unvisted (state c) →
  currentVertex (state c) = Some v →
  currentEdge (state c) = Some edge →
  let c' := (next c).1 in
  (next c).2 = false ∧
  currentEdge (state c') = None ∧
  unvisted (state c') = unvisted (state c) ∧
  edgesLeft (state c') = edgesLeft (state c) ∧
  currentVertex (state c') = currentVertex (state c) ∧
  isDone (state c') = isDone (state c) ∧
  graph c' = graph c ∧ start c' = start c ∧ end_ c' = end_ c ∧
  (∀ k, k ≠ to edge → distances (state c') !! k = distances (state c) !! k) ∧
  (∀ k, k ≠ to edge → previous (state c') !! k = previous (state c) !! k).
Proof.
  intros Hend HcV HcE. apply includes_true in Hend.
  unfold next. rewrite Hend, HcV, HcE, andb_false_r. simpl.
  case_match; simpl; repeat split; try done.
  - intros k Hk. by rewrite lookup_assign_ne.
  - intros k Hk. by rewrite lookup_assign_ne.
Qed.

(** A run of the relax branch on the default graph of the demo page. *)
Lemma relax_frame_witness :
  let c := nexts 2 (useDijkstra defaultGraph "A" "D") in
  (next c).2 = false ∧ currentEdge (state (next c).1) = None.
Proof.
  intros c.
  destruct (relax_frame c "A" (mkEdge "A" "B" 2)) as (H1 & H2 & _).
  - apply includes_true. vm_compute. reflexivity.
  - vm_compute. reflexivity.
  - vm_compute. reflexivity.
  - split; assumption.
Defined.

(** ** Distances never grow *)

Lemma number_lt_fin a b : number_lt a b = true → ∃ z, a = Fin z.
Proof. destruct a; simpl; eauto; discriminate. Qed.

Lemma number_lt_le a b : number_lt a b = true → number_le a b = true.
Proof.
  destruct a, b; simpl; try done.
  intros H%bool_decide_eq_true. apply bool_decide_eq_true. lia.
Qed.

Lemma fill_infinity_lookup (l : list Id) (d0 : gmap Id slot) k :
  d0 !! "__proto__"%string = None →
  foldl (λ distances id, assign id (Num Infinity) distances) d0 l !! k =
  if decide (k = "__proto__"%string) then None
  else if decide (k ∈ l) then Some (Num Infinity) else d0 !! k.
Proof.
  revert d0. induction l as [|x l IH]; intros d0 Hd0.
  - case_decide; [by subst|]. rewrite decide_False; [done|]. apply not_elem_of_nil.
  - cbn [foldl]. rewrite IH by by apply lookup_assign_proto.
    case_decide as Hp; [done|].
    destruct (decide (k ∈ l)) as [Hl|Hl], (decide (k ∈ x :: l)) as [Hx|Hx];
      try done.
    + exfalso. apply Hx. by right.
    + apply elem_of_cons in Hx as [->|?]; [|done].
      rewrite assign_insert by by left. by rewrite lookup_insert_eq.
    + rewrite lookup_assign_ne; [done|]. intros ->. apply Hx. by left.
Qed.

(** The own properties of the initial [distances]: none under
    ['__proto__']. *)
Lemma initDistances_lookup g st k :
  initDistances g st !! k =
  if decide (k = "__proto__"%string) then None
  else if decide (k = st) then Some (Num (Fin 0))
  else if decide (k ∈ Object_keys (vertices g)) then Some (Num Infinity)
  else None.
Proof.
  unfold initDistances.
  set (d := foldl _ _ _).
  assert (Hd : ∀ k', d !! k' =
            if decide (k' = "__proto__"%string) then None
            else if decide (k' ∈ Object_keys (vertices g)) then Some (Num Infinity)
            else None).
  { intros k'. unfold d. rewrite fill_infinity_lookup by done.
    by rewrite lookup_empty. }
  case_decide as Hp.
  - subst. apply lookup_assign_proto. rewrite Hd. by rewrite decide_True.
  - destruct (decide (k = st)) as [->|Hne].
    + rewrite assign_insert by by left. by rewrite lookup_insert_eq.
    + rewrite lookup_assign_ne by done. rewrite Hd. by rewrite decide_False.
Qed.

Lemma initDistances_clean g st : clean (initDistances g st).
Proof.
  intros k v. rewrite initDistances_lookup.
  repeat case_decide; intros [= <-]; eauto.
Qed.

Lemma next_clean c : clean (distances (state c)) → clean (distances (state (next c).1)).
Proof.
  intros Hc. next_cases; try done.
  intros k v [[-> ->]|Hk]%lookup_assign; [|by eapply Hc].
  match goal with H : number_lt _ _ = true |- _ =>
    apply number_lt_fin in H; destruct H as [z ->] end.
  eauto.
Qed.

Lemma reachable_clean g st en c : reachable g st en c → clean (distances (state c)).
Proof.
  induction 1 as [|c _ IH]; [apply initDistances_clean|by apply next_clean].
Qed.

Lemma clean_dist_of s v : clean (distances s) → dist_of s v ≠ NaN.
Proof.
  intros Hc. unfold dist_of, nullish.
  destruct (distances s !! v) as [[n|]|] eqn:E; try done.
  destruct (Hc _ _ E) as [[= ->]|[z [= ->]]]; done.
Qed.

Lemma number_le_refl a : a ≠ NaN → number_le a a = true.
Proof. destruct a; simpl; try done. intros _. by apply bool_decide_eq_true. Qed.

(** C5: along every call of [next] from a reachable state the distance of
    every vertex (read with [Infinity] for a missing entry) stays or
    decreases, and [distances] changes at all only in the relax step, that
    is when [currentEdge] is set. *)
Theorem distances_never_grow g st en c v :
  reachable g st en c →
  number_le (dist_of (state (next c).1) v) (dist_of (state c) v) = true ∧
  (currentEdge (state c) = None →
   distances (state (next c).1) = distances (state c)).
Proof.
  intros Hr. pose proof (clean_dist_of (state c) v (reachable_clean _ _ _ _ Hr)) as Hn.
  next_cases; (split; [|try done]); try (by apply number_le_refl).
  unfold dist_of in *. simpl.
  destruct (assign_cases (to e)
              (Num (number_add (to_number (get (distances (state c)) (from e)))
                               (Fin (cost e))))
              (distances (state c))) as [->|[-> _]];
    [|by apply number_le_refl].
  destruct (decide (v = to e)) as [->|Hne].
  - rewrite lookup_insert_eq. simpl. apply number_lt_le.
    match goal with H : number_lt _ _ = true |- _ =>
      by destruct (relax_test_true _ _ _ _ H) as (_ & <- & _) end.
  - rewrite lookup_insert_ne by done. by apply number_le_refl.
Qed.

Lemma distances_never_grow_witness :
  number_le (dist_of (state (next (nexts 11 (useDijkstra defaultGraph "A" "D"))).1) "D")
            (dist_of (state (nexts 11 (useDijkstra defaultGraph "A" "D"))) "D") = true.
Proof.
  apply (distances_never_grow defaultGraph "A" "D").
  apply reachable_nexts.
Defined.

(** ** Phase discipline *)

Lemma next_phase_ok c : phase_ok c → phase_ok (next c).1.
Proof.
  intros [HE HL]. unfold phase_ok.
  next_cases; split; intros; try done; eauto.
  - (* termination noticed: no edge can be under examination *)
    match goal with H : currentEdge _ ≠ None |- _ => destruct (HE H) as [_ ?] end.
    done.
  - (* frontier selection: [currentVertex] was none, hence so was [currentEdge] *)
    match goal with H : currentEdge _ ≠ None |- _ => destruct (HE H) as [? _] end.
    done.
  - (* expansion completed: [edgesLeft] is empty *)
    match goal with H : bool_decide _ = true |- _ =>
      apply bool_decide_eq_true, nil_length_inv in H end.
    done.
Qed.

Lemma reachable_phase_ok g st en c : reachable g st en c → phase_ok c.
Proof.
  induction 1 as [|c _ IH]; [|by apply next_phase_ok].
  split; simpl; done.
Qed.

(** C3 (amended): in every state reachable by calls of [next], [currentEdge]
    is set only while [currentVertex] is set, and [edgesLeft] is non-empty
    only while [currentVertex] is set or the search has terminated. *)
Theorem phase_invariant g st en c :
  reachable g st en c →
  (currentEdge (state c) ≠ None → currentVertex (state c) ≠ None) ∧
  (edgesLeft (state c) ≠ [] →
   currentVertex (state c) ≠ None ∨ isDone (state c) = true).
Proof.
  intros [HE HL]%reachable_phase_ok. split; [|done].
  intros H. by destruct (HE H).
Qed.

Lemma phase_invariant_witness :
  let c := nexts 6 (useDijkstra pathGraph "A" "B") in
  edgesLeft (state c) ≠ [] ∧
  (currentVertex (state c) ≠ None ∨ isDone (state c) = true).
Proof.
  intros c.
  assert (Hl : edgesLeft (state c) ≠ []) by (vm_compute; discriminate).
  split; [exact Hl|].
  apply (phase_invariant pathGraph "A" "B" c); [apply reachable_nexts|exact Hl].
Defined.

(** On the path A - B - C searched from A to B, the sixth call of [next]
    notices that B is finalized: it clears [currentVertex] and leaves the
    edge B - C in [edgesLeft]. *)
Lemma phase_invariant_counterexample :
  let c := nexts 6 (useDijkstra pathGraph "A" "B") in
  reachable pathGraph "A" "B" c ∧
  ¬ (edgesLeft (state c) ≠ [] → currentVertex (state c) ≠ None).
Proof.
  split; [apply reachable_nexts|].
  intros H. apply H; [|reflexivity]. vm_compute. discriminate.
Qed.

(** ** Frontier selection *)

Lemma nullish_fin v z : nullish v Infinity = Fin z → v = Some (Num (Fin z)).
Proof. destruct v as [[n|]|]; simpl; congruence. Qed.

Lemma number_lt_lower a z z' :
  number_lt a (Fin z) = false → (z' < z)%Z →
  number_lt a (Fin z') = false ∧ a ≠ Fin z'.
Proof.
  destruct a as [x| |]; simpl; try done.
  intros H%bool_decide_eq_false Hz. split.
  - apply bool_decide_eq_false. lia.
  - intros [= ->]. lia.
Qed.

Lemma number_lt_not_infinite a z :
  number_lt a Infinity = false → number_lt a (Fin z) = false ∧ a ≠ Fin z.
Proof. destruct a; simpl; done. Qed.

Lemma scan_snoc dist l x : scan dist (l ++ [x]) = scan_step dist (scan dist l) x.
Proof. unfold scan. by rewrite foldl_app. Qed.

(** The loop decides on the own properties alone. *)
Lemma scan_step_own dist acc v :
  scan_step dist acc v =
  if number_lt (nullish (dist !! v) Infinity) (to_number acc.2)
  then (v, dist !! v) else acc.
Proof.
  unfold scan_step. rewrite nullish_get_lt.
  destruct (number_lt (nullish (dist !! v) Infinity) (to_number acc.2)) eqn:E;
    [|done].
  rewrite <- nullish_get_lt in E. by rewrite (lt_get_own _ _ _ E).
Qed.

(** What the selection loop computes: either no vertex of the list has a
    distance below [Infinity] and the loop keeps its initial values, or it
    stops on the first vertex of least distance. *)
Lemma scan_spec dist l :
  (scan dist l = (""%string, Some (Num Infinity)) ∧
   ∀ u, u ∈ l → number_lt (nullish (dist !! u) Infinity) Infinity = false)
  ∨
  (∃ pre post m z,
     l = pre ++ m :: post ∧
     scan dist l = (m, Some (Num (Fin z))) ∧
     dist !! m = Some (Num (Fin z)) ∧
     (∀ u, u ∈ pre → number_lt (nullish (dist !! u) Infinity) (Fin z) = false ∧
                      nullish (dist !! u) Infinity ≠ Fin z) ∧
     (∀ u, u ∈ post → number_lt (nullish (dist !! u) Infinity) (Fin z) = false)).
Proof.
  induction l as [|x l IH] using rev_ind.
  - left. split; [done|]. intros u Hu. by apply elem_of_nil in Hu.
  - rewrite scan_snoc, scan_step_own.
    destruct IH as [[-> Hall]|(pre & post & m & z & -> & -> & Hm & Hpre & Hpost)];
      simpl.
    + destruct (number_lt (nullish (dist !! x) Infinity) Infinity) eqn:Hx.
      * right. destruct (number_lt_fin _ _ Hx) as [z Hz].
        apply nullish_fin in Hz as Hz'.
        exists l, [], x, z. rewrite Hz'. split_and!; try done.
        -- intros u Hu. by apply number_lt_not_infinite, Hall.
        -- intros u Hu. by apply elem_of_nil in Hu.
      * left. split; [done|].
        intros u [Hu| ->%list_elem_of_singleton]%elem_of_app; auto.
    + destruct (number_lt (nullish (dist !! x) Infinity) (Fin z)) eqn:Hx.
      * right. destruct (number_lt_fin _ _ Hx) as [z' Hz].
        apply nullish_fin in Hz as Hz'. rewrite Hz in Hx.
        simpl in Hx. apply bool_decide_eq_true in Hx.
        exists (pre ++ m :: post), [], x, z'. rewrite Hz'.
        split_and!; try done.
        -- intros u. rewrite elem_of_app, elem_of_cons. intros [?|[->|?]].
           ++ apply (number_lt_lower _ z); [by apply Hpre|done].
           ++ rewrite Hm. simpl. split; [apply bool_decide_eq_false; lia|].
              intros [= ->]. lia.
           ++ apply (number_lt_lower _ z); [by apply Hpost|done].
        -- intros u Hu. by apply elem_of_nil in Hu.
      * right. exists pre, (post ++ [x]), m, z.
        rewrite <- app_assoc. split_and!; try done.
        intros u [Hu| ->%list_elem_of_singleton]%elem_of_app; auto.
Qed.

Lemma connections_touching g chosen unv :
  connections g chosen unv = touching_edges g chosen unv.
Proof.
  unfold connections, touching_edges.
  induction (edges g) as [|e l IH]; [done|].
  rewrite fmap_cons, filter_cons, IH. clear IH. cbn [omap list_omap].
  unfold normalize. destruct (decide (to e = chosen)) as [Ht|Ht]; simpl.
  - destruct (includes unv (from e)) eqn:Hi.
    + by rewrite decide_True.
    + rewrite decide_False; [done|]. intros [_ ?]. congruence.
  - destruct (decide (from e = chosen)) as [Hf|Hf].
    + destruct (includes unv (to e)) eqn:Hi.
      * by rewrite decide_True.
      * rewrite decide_False; [done|]. intros [_ ?]. congruence.
    + rewrite decide_False; [done|]. by intros [? _].
Qed.

(** X17: Frontier selection with a candidate: when some unvisited vertex has a
    recorded distance below [Infinity], [next] chooses the first vertex of
    least distance in the [unvisted] sequence, makes it [currentVertex],
    sets [edgesLeft] to the edges touching it (reversed when the vertex is
    their [to]) whose far endpoint is unvisited, removes the vertex from
    [unvisted], changes nothing else and returns [false]. *)
Theorem frontier_selection c :
  end_ c ∈ unvisted (state c) →
  currentVertex (state c) = None →
  (∃ u, u ∈ unvisted (state c) ∧ number_lt (dist_of (state c) u) Infinity = true) →
  ∃ chosen pre post,
    unvisted (state c) = pre ++ chosen :: post ∧
    (∀ u, u ∈ unvisted (state c) →
          number_lt (dist_of (state c) u) (dist_of (state c) chosen) = false) ∧
    (∀ u, u ∈ pre → dist_of (state c) u ≠ dist_of (state c) chosen) ∧
    (next c).2 = false ∧
    state (next c).1 =
      {| unvisted := filter (λ u, u ≠ chosen) (unvisted (state c));
         distances := distances (state c);
         previous := previous (state c);
         currentVertex := Some chosen;
         currentEdge := currentEdge (state c);
         edgesLeft := touching_edges (graph c) chosen (unvisted (state c));
         isDone := isDone (state c) |}.
Proof.
  intros Hend%includes_true HcV (u0 & Hu0 & Hlt).
  unfold next. rewrite Hend, HcV. simpl.
  destruct (scan_spec (distances (state c)) (unvisted (state c)))
    as [[_ Hall]|(pre & post & m & z & Hl & Hs & Hm & Hpre & Hpost)].
  { specialize (Hall _ Hu0). unfold dist_of in Hlt. congruence. }
  exists m, pre, post. rewrite Hs. simpl. unfold dist_of. rewrite Hm. simpl.
  split_and!; try done.
  - rewrite Hl. intros u. rewrite elem_of_app, elem_of_cons. intros [?|[->|?]].
    + by apply Hpre.
    + rewrite Hm. simpl. apply bool_decide_eq_false. lia.
    + by apply Hpost.
  - intros u Hu. by apply Hpre.
  - unfold set_unvisted, set_edgesLeft, set_currentVertex. simpl.
    by rewrite connections_touching.
Qed.

Lemma frontier_selection_witness :
  ∃ chosen, currentVertex (state (next (useDijkstra defaultGraph "A" "D")).1) = Some chosen.
Proof.
  destruct (frontier_selection (useDijkstra defaultGraph "A" "D"))
    as (chosen & pre & post & _ & _ & _ & _ & Hs).
  - apply includes_true. reflexivity.
  - reflexivity.
  - exists "A"%string. split; [apply includes_true; reflexivity|reflexivity].
  - exists chosen. by rewrite Hs.
Defined.

(** C4 (what the code does when no unvisited vertex has a finite distance):
    with two isolated vertices A and B, searched from A to B, the third call
    of [next] selects a frontier while B alone is unvisited, at distance
    [Infinity], and so is the unvisited vertex of minimum distance.  The
    call does not choose it: it makes the empty identifier, which is not
    unvisited, the current vertex and leaves B in [unvisted]. *)
Theorem frontier_selection_misses_infinite :
  let c := nexts 2 (useDijkstra isolatedGraph "A" "B") in
  end_ c ∈ unvisted (state c) ∧
  currentVertex (state c) = None ∧
  unvisted (state c) = ["B"%string] ∧
  dist_of (state c) "B" = Infinity ∧
  currentVertex (state (next c).1) = Some ""%string ∧
  unvisted (state (next c).1) = ["B"%string] ∧
  ¬ (∃ chosen, chosen ∈ unvisted (state c) ∧
               currentVertex (state (next c).1) = Some chosen).
Proof.
  split_and!; try (vm_compute; reflexivity).
  - apply includes_true. reflexivity.
  - intros (chosen & Hin & Hc). vm_compute in Hc. injection Hc as <-.
    apply includes_true in Hin. vm_compute in Hin. discriminate.
Qed.

(** ** The empty frontier *)

Lemma scan_all_infinite dist l :
  (∀ u, u ∈ l → nullish (dist !! u) Infinity = Infinity) →
  scan dist l = (""%string, Some (Num Infinity)).
Proof.
  intros Hall.
  destruct (scan_spec dist l) as [[? _]|(pre & post & m & z & -> & _ & Hm & _)];
    [done|].
  specialize (Hall m). rewrite Hm in Hall. simpl in Hall.
  discriminate Hall. apply elem_of_app. right. by left.
Qed.

Lemma filter_absent (l : list Id) (x : Id) : x ∉ l → filter (λ u, u ≠ x) l = l.
Proof.
  intros Hx. induction l as [|y l IH]; [done|].
  rewrite filter_cons. rewrite decide_True.
  - rewrite IH; [done|]. intros ?. apply Hx. by right.
  - intros ->. apply Hx. by left.
Qed.

Lemma inert_no_relax s e n :
  inert s → from e = ""%string →
  number_lt (number_add (to_number (get (distances s) (from e))) (Fin (cost e))) n = false.
Proof.
  unfold inert. intros Hi ->. rewrite get_empty.
  destruct (to_number (distances s !! ""%string)); simpl in *; done.
Qed.

Lemma next_stuck c : stuck c → stuck (next c).1 ∧ (next c).2 = false.
Proof.
  intros (Hend & Hinf & Hempty & Hinert & Hphase).
  unfold stuck, next. apply includes_true in Hend as Hinc. rewrite Hinc. simpl.
  destruct Hphase as [[HcV HcE]|(HcV & HL & HE)]; rewrite HcV; simpl.
  - (* frontier selection falls back to the empty identifier *)
    rewrite (scan_all_infinite _ _ Hinf). simpl.
    rewrite (filter_absent _ _ Hempty). split_and!; try done.
    right. split_and!; [done| |by rewrite HcE].
    intros e He. unfold connections in He.
    apply list_elem_of_filter in He. by destruct He as [[? _] _].
  - destruct (currentEdge (state c)) as [e|] eqn:HcE.
    + (* relax: the edge starts at the empty identifier and improves nothing *)
      rewrite andb_false_r. rewrite (inert_no_relax _ _ _ Hinert (HE e eq_refl)).
      simpl. split_and!; try done. right. by split_and!.
    + destruct (edgesLeft (state c)) as [|e l] eqn:HeL; simpl.
      * split_and!; try done. by left.
      * split_and!; try done. right. split_and!; [done| |].
        -- intros e' He'. rewrite HeL in He'. apply HL. by right.
        -- intros e' [= <-]. apply HL. by left.
Qed.

Lemma stuck_forever c k : stuck c → stuck (nexts k c) ∧ (next (nexts k c)).2 = false.
Proof.
  revert c. induction k as [|k IH]; intros c Hs; simpl.
  - split; [done|]. by apply next_stuck.
  - apply IH. by apply next_stuck.
Qed.

Lemma fallback_edges_connections g unv :
  connections g "" unv = fallback_edges g unv.
Proof.
  unfold connections, fallback_edges. apply list_filter_iff.
  intros e. by rewrite includes_true.
Qed.

(** When the search starts from the empty identifier, which is no vertex of
    the graph but the source of an edge, the first frontier selection meets
    only infinite distances and falls back to the empty identifier; the
    search nevertheless goes on from there and the tenth call of [next]
    returns [true]. *)
Lemma empty_frontier_counterexample :
  let c := useDijkstra danglingGraph "" "B" in
  end_ c ∈ unvisted (state c) ∧
  currentVertex (state c) = None ∧
  currentEdge (state c) = None ∧
  (∀ u, u ∈ unvisted (state c) → dist_of (state c) u = Infinity) ∧
  (""%string ∉ Object_keys (vertices (graph c))) ∧
  (next (nexts 9 c)).2 = true.
Proof.
  split_and!; try (vm_compute; reflexivity).
  - apply includes_true. reflexivity.
  - intros u Hu.
    change (unvisted (state (useDijkstra danglingGraph "" "B")))
      with ["A"; "B"]%string in Hu.
    apply elem_of_cons in Hu as [->|Hu]; [reflexivity|].
    apply list_elem_of_singleton in Hu as ->. reflexivity.
  - apply includes_false. reflexivity.
Qed.

Lemma nexts_add a b c : nexts (a + b) c = nexts b (nexts a c).
Proof. revert c. induction a as [|a IH]; intros c; simpl; [done|]. apply IH. Qed.

(** C1 (what the code does on an unreachable [end]): with two isolated
    vertices A and B, searched from A to B, no call of [next] ever returns
    [true]; [unvisted] never becomes empty and the search is never reported
    as done. *)
Theorem unreachable_end_never_done :
  ∀ k, (next (nexts k (useDijkstra isolatedGraph "A" "B"))).2 = false ∧
       isDone (state (nexts k (useDijkstra isolatedGraph "A" "B"))) = false ∧
       unvisted (state (nexts (2 + k) (useDijkstra isolatedGraph "A" "B"))) = ["B"%string].
Proof.
  assert (Hstuck : stuck (nexts 2 (useDijkstra isolatedGraph "A" "B"))).
  { split_and!.
    - apply includes_true. reflexivity.
    - intros u Hu.
      change (unvisted (state (nexts 2 (useDijkstra isolatedGraph "A" "B"))))
        with ["B"%string] in Hu.
      apply list_elem_of_singleton in Hu as ->. reflexivity.
    - apply includes_false. reflexivity.
    - reflexivity.
    - by left. }
  assert (Hkeep : ∀ k c, stuck c →
            isDone (state (nexts k c)) = isDone (state c) ∧
            unvisted (state (nexts k c)) = unvisted (state c)).
  { induction k as [|k IH]; intros c Hs; [done|]. simpl.
    destruct (next_stuck c Hs) as [Hs' _].
    destruct (IH _ Hs') as [-> ->]. clear IH Hs'.
    destruct Hs as (Hend & Hinf & Hempty & Hinert & Hphase).
    apply includes_true in Hend. unfold next. rewrite Hend. simpl.
    destruct Hphase as [[HcV HcE]|(HcV & HL & HE)]; rewrite HcV; simpl.
    - rewrite (scan_all_infinite _ _ Hinf). simpl.
      by rewrite (filter_absent _ _ Hempty).
    - repeat (case_match; simpl); done. }
  intros k. split_and!.
  - destruct k as [|[|k]]; [reflexivity..|].
    change (S (S k)) with (2 + k)%nat. rewrite nexts_add.
    by apply stuck_forever.
  - destruct k as [|[|k]]; [reflexivity..|].
    change (S (S k)) with (2 + k)%nat. rewrite nexts_add.
    by destruct (Hkeep k _ Hstuck) as [-> _].
  - rewrite nexts_add. by destruct (Hkeep k _ Hstuck) as [_ ->].
Qed.

(** ** The example scenario *)

(** C2: on the graph A→B(2), A→C(1), B→C(3), B→D(2), C→D(8), C→E(3) searched
    from A to D, the calls of [next] return [false] nineteen times and then
    [true]; in the final snapshot the distances are A=0, B=2, C=1, D=4, E=4
    and [previous] maps B to A, C to A, D to B, E to C and A to [null]. *)
Theorem example_scenario :
  let c := useDijkstra defaultGraph "A" "D" in
  (∀ j, (j < 19)%nat → (next (nexts j c)).2 = false) ∧
  (next (nexts 19 c)).2 = true ∧
  let s := state (next (nexts 19 c)).1 in
  distances s !! "A"%string = Some (Num (Fin 0)) ∧
  distances s !! "B"%string = Some (Num (Fin 2)) ∧
  distances s !! "C"%string = Some (Num (Fin 1)) ∧
  distances s !! "D"%string = Some (Num (Fin 4)) ∧
  distances s !! "E"%string = Some (Num (Fin 4)) ∧
  previous s !! "A"%string = Some None ∧
  previous s !! "B"%string = Some (Some "A"%string) ∧
  previous s !! "C"%string = Some (Some "A"%string) ∧
  previous s !! "D"%string = Some (Some "B"%string) ∧
  previous s !! "E"%string = Some (Some "C"%string) ∧
  isDone s = true.
Proof.
  intros c. split; [|split].
  - intros j Hj. do 19 (destruct j as [|j]; [vm_compute; reflexivity|]). lia.
  - vm_compute. reflexivity.
  - intros s. split_and!; vm_compute; reflexivity.
Qed.

(** ** The entries of the start vertex *)

Lemma init_start_inv g st :
  st ≠ "__proto__"%string → start_inv st (initDijkstra g st).
Proof.
  intros Hp. split_and!; simpl; try done.
  - rewrite initDistances_lookup. rewrite decide_False by done.
    by rewrite decide_True.
  - by rewrite lookup_singleton_eq.
  - intros e He. by apply elem_of_nil in He.
  - intros Hst. split_and!; try done. intros u Hu Hne.
    unfold dist_of. simpl. rewrite initDistances_lookup.
    case_decide; [done|].
    rewrite decide_False by done. by rewrite decide_True.
Qed.

Lemma scan_picks_start st s :
  start_inv st s → st ∈ unvisted s → (scan (distances s) (unvisted s)).1 = st.
Proof.
  intros (Hd & _ & _ & _ & Hun) Hst. destruct (Hun Hst) as (_ & _ & Hinf).
  destruct (scan_spec (distances s) (unvisted s))
    as [[_ Hall]|(pre & post & m & z & Hl & -> & Hm & _)]; simpl.
  - specialize (Hall _ Hst). rewrite Hd in Hall. discriminate.
  - destruct (decide (m = st)) as [|Hne]; [done|].
    assert (Hin : m ∈ unvisted s).
    { rewrite Hl. apply elem_of_app. right. by left. }
    specialize (Hinf m Hin Hne). unfold dist_of in Hinf. rewrite Hm in Hinf.
    discriminate.
Qed.

Lemma connections_elem g minimal unv e :
  e ∈ connections g minimal unv →
  from e = minimal ∧ to e ∈ unv ∧
  ∃ e0, e0 ∈ edges g ∧ e = normalize minimal e0.
Proof.
  unfold connections. intros [[Hf Ht] He]%list_elem_of_filter.
  apply includes_true in Ht. apply list_elem_of_fmap in He as (e0 & -> & He0).
  eauto.
Qed.

Lemma next_start_inv c :
  (∀ e, e ∈ edges (graph c) → from e ≠ to e) →
  start_inv (start c) (state c) → start_inv (start c) (state (next c).1).
Proof.
  intros Hloops Hinv. pose proof Hinv as (Hd & Hp & HL & HE & Hun).
  unfold next. destruct (includes (unvisted (state c)) (end_ c)) eqn:Hinc; simpl.
  2: { destruct (isDone (state c)); simpl; [done|]. by split_and!. }
  destruct (currentVertex (state c)) as [v|] eqn:HcV; simpl.
  2: { (* frontier selection *)
    set (minimal := (scan (distances (state c)) (unvisted (state c))).1).
    split_and!; simpl; try done.
    - intros e (Hf & Ht & e0 & He0 & ->)%connections_elem.
      destruct (decide (start c ∈ unvisted (state c))) as [Hst|Hst].
      + assert (minimal = start c) as Hm by by apply scan_picks_start.
        unfold normalize in *. rewrite Hm in *.
        destruct (decide (to e0 = start c)) as [Heq|Hneq]; simpl in *; [|done].
        intros Heq'. apply (Hloops e0 He0). congruence.
      + intros Heq. apply Hst. congruence.
    - intros [Hne Hst]%list_elem_of_filter. exfalso. apply Hne.
      symmetry. by apply scan_picks_start. }
  destruct (currentEdge (state c)) as [e|] eqn:HcE.
  - (* relax *)
    rewrite andb_false_r. specialize (HE e eq_refl).
    case_match; simpl; split_and!; simpl; try done.
    + by rewrite lookup_assign_ne.
    + by rewrite lookup_assign_ne.
    + intros Hst. by destruct (Hun Hst) as [? _].
    + intros Hst. by destruct (Hun Hst) as [? _].
  - destruct (edgesLeft (state c)) as [|e l] eqn:HeL; simpl.
    + split_and!; simpl; rewrite ?HeL, ?HcE; done.
    + split_and!; simpl; rewrite ?HeL; simpl; try done.
      * intros e' He'. apply HL. by right.
      * intros e' [= <-]. apply HL. by left.
      * intros Hst. by destruct (Hun Hst) as (_ & ? & _).
Qed.

Lemma reachable_start_inv g st en c :
  (∀ e, e ∈ edges g → from e ≠ to e) → st ≠ "__proto__"%string →
  reachable g st en c → start_inv st (state c).
Proof.
  intros Hloops Hp. induction 1 as [|c Hr IH]; [by apply init_start_inv|].
  destruct (reachable_refs _ _ _ _ Hr) as (Hs & _ & Hg).
  rewrite <- Hs in *. apply next_start_inv; [|done]. by rewrite Hg.
Qed.

(** X18: The entries of the start vertex: for a graph without self-loops and
    a start other than ['__proto__'], every state reachable by calls of
    [next] has [distances[start]] equal to 0 and [previous[start]] equal to
    [null]; whether [start] is a vertex does not matter. *)
Theorem start_entries_kept g st en c :
  (∀ e, e ∈ edges g → from e ≠ to e) →
  st ≠ "__proto__"%string →
  reachable g st en c →
  distances (state c) !! st = Some (Num (Fin 0)) ∧
  previous (state c) !! st = Some None.
Proof.
  intros Hloops Hp Hr.
  by destruct (reachable_start_inv _ _ _ _ Hloops Hp Hr) as (? & ? & _).
Qed.

Lemma start_entries_kept_witness :
  let c := nexts 20 (useDijkstra defaultGraph "A" "D") in
  distances (state c) !! "A"%string = Some (Num (Fin 0)) ∧
  previous (state c) !! "A"%string = Some None.
Proof.
  apply (start_entries_kept defaultGraph "A" "D").
  - intros e He. simpl in He.
    repeat (apply elem_of_cons in He as [->|He]; [simpl; congruence|]).
    by apply elem_of_nil in He.
  - discriminate.
  - apply reachable_nexts.
Defined.

(** No assignment ever stores a distance under ['__proto__']. *)
Lemma next_no_proto c :
  distances (state c) !! "__proto__"%string = None →
  distances (state (next c).1) !! "__proto__"%string = None.
Proof. intros Hc. next_cases; try done. by apply lookup_assign_proto. Qed.

Lemma reachable_no_proto g st en c :
  reachable g st en c → distances (state c) !! "__proto__"%string = None.
Proof.
  induction 1 as [|c _ IH]; [|by apply next_no_proto].
  simpl. rewrite initDistances_lookup. by rewrite decide_True.
Qed.

Lemma next_stuck_frame c :
  stuck c →
  distances (state (next c).1) = distances (state c) ∧
  previous (state (next c).1) = previous (state c).
Proof.
  intros (Hend & Hinf & Hempty & Hinert & Hphase).
  apply includes_true in Hend. unfold next. rewrite Hend. simpl.
  destruct Hphase as [[HcV HcE]|(HcV & HL & HE)]; rewrite HcV; simpl; [done|].
  destruct (currentEdge (state c)) as [e|] eqn:HcE.
  - rewrite andb_false_r. by rewrite (inert_no_relax _ _ _ Hinert (HE e eq_refl)).
  - by destruct (edgesLeft (state c)).
Qed.

(** C6 (what the code does for a start vertex named ['__proto__']): on the
    graph with the vertices ['__proto__'] and B joined by one edge, which
    has no self-loop, searched from ['__proto__'] to B, [distances] never
    holds an entry for the start vertex: the assignment of 0 is dropped,
    and so is not the entry of [previous], which stays [null].  With no
    distance recorded for it the start vertex is never chosen, and no call
    of [next] returns [true]. *)
Theorem start_distance_dropped :
  (∀ e, e ∈ edges protoGraph → from e ≠ to e) ∧
  "__proto__"%string ∈ Object_keys (vertices protoGraph) ∧
  ∀ k, let c := nexts k (useDijkstra protoGraph "__proto__" "B") in
       distances (state c) !! "__proto__"%string = None ∧
       previous (state c) !! "__proto__"%string = Some None ∧
       (next c).2 = false.
Proof.
  split_and!.
  - intros e ->%list_elem_of_singleton. discriminate.
  - apply includes_true. reflexivity.
  - assert (Hstuck : stuck (useDijkstra protoGraph "__proto__" "B")).
    { split_and!.
      - apply includes_true. reflexivity.
      - intros u Hu.
        change (unvisted (state (useDijkstra protoGraph "__proto__" "B")))
          with ["__proto__"; "B"]%string in Hu.
        apply elem_of_cons in Hu as [->|Hu]; [reflexivity|].
        apply list_elem_of_singleton in Hu as ->. reflexivity.
      - apply includes_false. reflexivity.
      - reflexivity.
      - by left. }
    assert (Hkeep : ∀ k c, stuck c →
              previous (state (nexts k c)) = previous (state c)).
    { induction k as [|k IH]; intros c Hs; [done|]. simpl.
      destruct (next_stuck c Hs) as [Hs' _]. rewrite (IH _ Hs').
      by destruct (next_stuck_frame c Hs) as [_ ->]. }
    intros k c. split_and!.
    + eapply reachable_no_proto, reachable_nexts.
    + unfold c. by rewrite (Hkeep k _ Hstuck).
    + by apply stuck_forever.
Qed.

(** ** Undo *)

Lemma denull_keys_lookup keys d k :
  denull_keys keys d !! k = if decide (k ∈ keys) then denull <$> d !! k else d !! k.
Proof.
  unfold denull_keys. revert d. induction keys as [|x keys IH]; intros d.
  - rewrite decide_False; [done|]. apply not_elem_of_nil.
  - cbn [foldl]. rewrite IH. clear IH.
    assert (Hstep : ∀ k',
      (if bool_decide (d !! x = Some Null) then <[x := Num Infinity]> d else d) !! k'
      = if decide (k' = x) then denull <$> d !! k' else d !! k').
    { intros k'. case_bool_decide as Hx; destruct (decide (k' = x)) as [->|Hne];
        try done.
      - by rewrite lookup_insert_eq, Hx.
      - by rewrite lookup_insert_ne.
      - destruct (d !! x) as [[n|]|]; done. }
    rewrite Hstep.
    destruct (decide (k ∈ keys)) as [Hk|Hk], (decide (k = x)) as [Heq|Hne].
    + rewrite decide_True by (rewrite Heq; left). by destruct (d !! k) as [[n|]|].
    + by rewrite decide_True by by right.
    + by rewrite decide_True by (rewrite Heq; left).
    + rewrite decide_False; [done|]. by intros [?|?]%elem_of_cons.
Qed.

Lemma denull_keys_all (d : gmap Id slot) :
  denull_keys (map_to_list d).*1 d = denull <$> d.
Proof.
  apply map_eq. intros k. rewrite denull_keys_lookup, lookup_fmap.
  case_decide as Hk; [done|].
  destruct (d !! k) as [v|] eqn:E; [|done].
  exfalso. apply Hk. apply list_elem_of_fmap. exists (k, v).
  split; [done|]. by apply elem_of_map_to_list.
Qed.

Lemma paused_loop keys c :
  tracking (history c) = false →
  foldl (λ c key,
           if bool_decide (distances (state c) !! key = Some Null)
           then watched (λ s, set_distances (<[key := Num Infinity]> (distances s)) s) c
           else c) c keys
  = set_state (set_distances (denull_keys keys (distances (state c))) (state c)) c.
Proof.
  unfold denull_keys. revert c. induction keys as [|x keys IH]; intros c Hp.
  - by destruct c as [? ? ? [] ?].
  - cbn [foldl]. case_bool_decide as Hx.
    + unfold watched. rewrite Hp. by rewrite IH.
    + by rewrite IH.
Qed.

(** [prev] in closed form: the state restored by [undo], with every [null]
    distance turned back into [Infinity], and tracking switched on again. *)
Lemma prev_eq c :
  prev c =
  mkComposable (start (undo c)) (end_ (undo c)) (graph (undo c))
    (set_distances (denull <$> distances (state (undo c))) (state (undo c)))
    {| lastRecord := lastRecord (history (undo c));
       undoStack := undoStack (history (undo c));
       tracking := true |}.
Proof.
  unfold prev. rewrite paused_loop by done.
  simpl. by rewrite denull_keys_all.
Qed.

Lemma denull_clean d : clean d → denull <$> d = d.
Proof.
  intros Hc. apply map_eq. intros k. rewrite lookup_fmap.
  destruct (d !! k) as [v|] eqn:E; [|done].
  by destruct (Hc _ _ E) as [->|[z ->]].
Qed.

Lemma denull_snapshot d : clean d → denull <$> (json_slot <$> (json_slot <$> d)) = d.
Proof.
  intros Hc. apply map_eq. intros k. rewrite !lookup_fmap.
  destruct (d !! k) as [v|] eqn:E; [|done].
  by destruct (Hc _ _ E) as [->|[z ->]].
Qed.

Lemma next_commits c : (next c).1 = c ∨ ∃ s', (next c).1 = batch (λ _, s') c.
Proof. next_cases; eauto. Qed.

Section History.
Variables (g : Graph) (st en : Id).

Lemma prev_initial : prev (useDijkstra g st en) = (useDijkstra g st en).
Proof.
  rewrite prev_eq. unfold useDijkstra, undo. simpl.
  rewrite denull_clean by apply initDistances_clean. done.
Qed.

Lemma next_hist_inv n c : hist_inv g st en n c → hist_inv g st en (S n) (next c).1.
Proof.
  intros (Hs & He & Hg & Hlen & Hst).
  destruct (next_commits c) as [->|[s' ->]].
  { split_and!; try done. lia. }
  split_and!; simpl; try done; [lia|]. right.
  destruct Hst as [->|[l ->]].
  - by exists [].
  - by exists (lastRecord (history c) :: l).
Qed.

Lemma nexts_hist_inv k : hist_inv g st en k (nexts k (useDijkstra g st en)).
Proof.
  induction k as [|k IH].
  - split_and!; try done. by left.
  - rewrite nexts_S. by apply next_hist_inv.
Qed.

Lemma prev_hist_inv n c : hist_inv g st en (S n) c → hist_inv g st en n (prev c).
Proof.
  intros (Hs & He & Hg & Hlen & Hst).
  destruct Hst as [->|[l Hl]].
  { rewrite prev_initial. split_and!; simpl; try done; [lia|by left]. }
  rewrite prev_eq. unfold undo. rewrite Hl in *.
  destruct l as [|r l]; simpl in *.
  - split_and!; simpl; try done; [lia|]. left.
    unfold useDijkstra. rewrite Hs, He, Hg. f_equal.
    rewrite denull_snapshot by apply initDistances_clean. done.
  - split_and!; simpl; try done; [lia|]. right. by exists l.
Qed.

Lemma prevs_restore n c : hist_inv g st en n c → prevs n c = (useDijkstra g st en).
Proof.
  revert c. induction n as [|n IH]; intros c Hc.
  - destruct Hc as (_ & _ & _ & Hlen & [->|[l Hl]]); [done|].
    rewrite Hl, length_app in Hlen. simpl in Hlen. lia.
  - simpl. apply IH. by apply prev_hist_inv.
Qed.
End History.

(** C7: after any [k] calls of [next] from the initial snapshot, [k] calls of
    [prev] restore the initial composable, and so its snapshot, field for
    field; [prev] at the initial snapshot changes nothing; and after any
    call of [prev] no slot of [distances] holds [null]. *)
Theorem undo_round_trip g st en k :
  let c0 := useDijkstra g st en in
  prevs k (nexts k c0) = c0 ∧
  state (prevs k (nexts k c0)) = initDijkstra g st ∧
  prev c0 = c0 ∧
  ∀ c key, distances (state (prev c)) !! key ≠ Some Null.
Proof.
  intros c0.
  assert (H : prevs k (nexts k c0) = c0).
  { apply prevs_restore. apply nexts_hist_inv. }
  split_and!; [done|by rewrite H|apply prev_initial|].
  intros c key. rewrite prev_eq. simpl. rewrite lookup_fmap.
  by destruct (distances (state (undo c)) !! key) as [[n|]|].
Qed.

(** ** [next] and the step relation *)

Lemma relax_test_false (d : gmap Id slot) f t k :
  number_lt (number_add (to_number (get d f)) (Fin k)) (nullish (get d t) Infinity) = false →
  number_lt (number_add (to_number (d !! f)) (Fin k)) (nullish (d !! t) Infinity) = false ∨
  (t ∈ Object_prototype ∧ d !! t = None).
Proof.
  intros Hlt.
  assert (Hf : ∀ x, number_lt (number_add (to_number (get d f)) (Fin k)) x = false →
                    number_lt (number_add (to_number (d !! f)) (Fin k)) x = false).
  { intros x. destruct (d !! f) as [y|] eqn:Ef; [by rewrite (get_own _ _ _ Ef)|].
    done. }
  destruct (d !! t) as [x|] eqn:Et.
  - left. rewrite (get_own _ _ _ Et) in Hlt. by apply Hf.
  - destruct (decide (t ∈ Object_prototype)) as [Hin|Hin]; [by right|].
    left. rewrite (get_plain d t Hin), Et in Hlt. by apply Hf.
Qed.

Lemma next_step c : step (graph c) (end_ c) (state c) (state (next c).1) (next c).2.
Proof.
  unfold next.
  destruct (includes (unvisted (state c)) (end_ c)) eqn:Hinc; simpl.
  2: { apply includes_false in Hinc.
       destruct (isDone (state c)) eqn:Hd; simpl; by constructor. }
  apply includes_true in Hinc.
  destruct (currentVertex (state c)) as [v|] eqn:HcV; simpl.
  2: { by constructor. }
  destruct (currentEdge (state c)) as [e|] eqn:HcE.
  - rewrite andb_false_r.
    destruct (number_lt _ _) eqn:Hlt; simpl.
    + destruct (relax_test_true _ _ _ _ Hlt) as (Hf & Ht & Ha).
      rewrite Ha, Hf. rewrite Hf, Ht in Hlt.
      eapply step_relax; try done.
      intros Hin. destruct (distances (state c) !! to e) as [x|] eqn:E; [eauto|].
      rewrite <- Ht, (get_member _ _ E Hin) in Hlt. simpl in Hlt.
      by rewrite number_lt_nan in Hlt.
    + eapply step_keep; try done. by apply relax_test_false.
  - destruct (edgesLeft (state c)) as [|e l] eqn:HeL; simpl.
    + by eapply step_expanded.
    + replace l with (drop 1 (edgesLeft (state c))) at 1 by by rewrite HeL.
      rewrite HeL. simpl. by eapply step_dequeue.
Qed.

Lemma step_refl_done g en s s' (b : bool) :
  step g en s s' b → b = negb (includes (unvisted s) en).
Proof.
  destruct 1;
    repeat match goal with
      | H : _ ∈ _ |- _ => apply includes_true in H
      | H : _ ∉ _ |- _ => apply includes_false in H
      end; by rewrite ?H.
Qed.

(** ** The empty frontier *)

Lemma normalize_touches m e0 :
  touches e0 (from (normalize m e0)) (to (normalize m e0)) ∧
  cost e0 = cost (normalize m e0).
Proof.
  unfold normalize, touches. destruct (decide (to e0 = m)) as [<-|?]; simpl; auto.
Qed.

Section Astray.
Variables (g : Graph) (en : Id) (unv : list Id).
Hypothesis Hfar : ¬ leads g unv en.

Lemma step_astray s s' b :
  step g en s s' b → astray g en unv s → astray g en unv s' ∧ b = false.
Proof.
  intros Hstep (Hend & Hsub & Hempty & Hfin & Hphase & Hcur).
  destruct Hstep as [Hend'|Hend'|_ HcV|v _ HcV HeL HcE|v e l _ HcV HeL HcE
                     |v e _ HcV HcE Hlt Hown|v e _ HcV HcE Hlt]; try done.
  - (* selection *)
    split; [|done].
    set (m := (scan (distances s) (unvisted s)).1).
    assert (Hm : leads g unv m).
    { unfold m.
      destruct (scan_spec (distances s) (unvisted s))
        as [[-> _]|(pre & post & x & z & Hl & -> & Hx & _)]; simpl;
        [constructor|].
      apply Hfin.
      - rewrite Hl. apply elem_of_app. right. by left.
      - unfold dist_of. by rewrite Hx. }
    split_and!; simpl.
    + apply list_elem_of_filter. split; [|done]. by intros ->.
    + intros u [_ Hu]%list_elem_of_filter. by apply Hsub.
    + intros [_ ?]%list_elem_of_filter. done.
    + intros u [_ Hu]%list_elem_of_filter. by apply Hfin.
    + done.
    + intros v [= <-]. split; [done|].
      intros e [He|He]; simpl in He; [|by rewrite (Hphase HcV) in He].
      apply connections_elem in He as (Hf & Ht & e0 & He0 & ->).
      split_and!; [done|by apply Hsub|].
      exists e0. split; [done|]. apply normalize_touches.
  - (* dequeue *)
    split; [|done]. destruct (Hcur _ HcV) as [Hv Hp].
    split_and!; try done; simpl; try congruence.
    intros v' Hv'. split; [congruence|].
    intros x Hx. rewrite HcV in Hv'. injection Hv' as <-. apply Hp.
    unfold pending in *. simpl in Hx. rewrite HeL.
    destruct Hx as [?|[= <-]]; left; [by right|by left].
  - (* relaxation *)
    split; [|done]. destruct (Hcur _ HcV) as [Hv Hp].
    destruct (Hp e) as (Hf & Ht & e0 & He0 & Htouch); [by right|].
    split_and!; try done; simpl; try congruence.
    + intros u Hu. unfold dist_of. simpl.
      destruct (decide (u = to e)) as [->|Hne].
      * intros _. rewrite <- Hf in Hv. by eapply leads_edge.
      * rewrite lookup_insert_ne by done. by apply Hfin.
    + intros v' Hv'. split; [congruence|].
      intros x [Hx|Hx]; [|done]. rewrite HcV in Hv'. injection Hv' as <-.
      apply Hp. by left.
  - (* no improvement *)
    split; [|done]. destruct (Hcur _ HcV) as [Hv Hp].
    split_and!; try done; simpl; try congruence.
    intros v' Hv'. split; [congruence|].
    intros x [Hx|Hx]; [|done]. rewrite HcV in Hv'. injection Hv' as <-.
    apply Hp. by left.
Qed.

Lemma astray_forever c k :
  graph c = g → end_ c = en → astray g en unv (state c) →
  (next (nexts k c)).2 = false.
Proof.
  revert c. induction k as [|k IH]; intros c Hg Hen Ha; simpl.
  - pose proof (next_step c) as Hs. rewrite Hg, Hen in Hs.
    by destruct (step_astray _ _ _ Hs Ha).
  - destruct (next_refs c) as (_ & Hen' & Hg').
    apply IH; [congruence|congruence|].
    pose proof (next_step c) as Hs. rewrite Hg, Hen in Hs.
    by destruct (step_astray _ _ _ Hs Ha).
Qed.

End Astray.

(** C9 (amended): in the frontier-selection phase, when every unvisited
    vertex has distance [Infinity] and the empty identifier is not itself
    unvisited, [next] sets [currentVertex] to the empty identifier, sets
    [edgesLeft] to the normalized edges that start at the empty identifier
    and end at an unvisited vertex, leaves [unvisted] and everything else
    unchanged and returns [false].  If moreover no edge is under
    examination, no later call of [next] ever returns [true], unless
    [distances] holds a finite number or [null] under the empty identifier
    and edges of the graph lead from the empty identifier to [end] through
    unvisited vertices. *)
Theorem empty_frontier c :
  end_ c ∈ unvisted (state c) →
  currentVertex (state c) = None →
  (∀ u, u ∈ unvisted (state c) → dist_of (state c) u = Infinity) →
  ""%string ∉ unvisted (state c) →
  (next c).2 = false ∧
  state (next c).1 =
    {| unvisted := unvisted (state c);
       distances := distances (state c);
       previous := previous (state c);
       currentVertex := Some ""%string;
       currentEdge := currentEdge (state c);
       edgesLeft := fallback_edges (graph c) (unvisted (state c));
       isDone := isDone (state c) |} ∧
  (currentEdge (state c) = None →
   inert (state c) ∨ ¬ leads (graph c) (unvisted (state c)) (end_ c) →
   ∀ k, (next (nexts k c)).2 = false).
Proof.
  intros Hend HcV Hinf Hempty. split_and!.
  - unfold next. apply includes_true in Hend. by rewrite Hend, HcV.
  - unfold next. apply includes_true in Hend. rewrite Hend, HcV. simpl.
    rewrite (scan_all_infinite _ _ Hinf). simpl.
    rewrite (filter_absent _ _ Hempty), fallback_edges_connections.
    done.
  - intros HcE [Hinert|Hfar] k.
    + apply stuck_forever. split_and!; try done. by left.
    + apply (astray_forever (graph c) (end_ c) (unvisted (state c)) Hfar);
        try done.
      split_and!; try done.
      * intros u Hu Hlt. rewrite (Hinf u Hu) in Hlt. done.
      * intros v Hv. congruence.
Qed.

Lemma emptyVertexGraph_no_lead : ¬ leads emptyVertexGraph ["B"%string] "B".
Proof.
  assert (H : ∀ w, leads emptyVertexGraph ["B"%string] w → w = ""%string).
  { induction 1 as [|v w e _ _ He Ht Hw]; [done|]. simpl in He.
    apply list_elem_of_singleton in He as ->.
    apply list_elem_of_singleton in Hw as ->.
    destruct Ht as [[_ Ht]|[_ Ht]]; discriminate Ht. }
  intros Hl. by apply H in Hl.
Qed.

(** On the graph A - '' with an isolated B, searched from A to B, the empty
    identifier is finalized at distance 1; after eight calls only B is
    unvisited, and the search stays where it is although a finite distance
    is recorded under the empty identifier: no edge leads to B. *)
Lemma empty_frontier_witness :
  let c := nexts 8 (useDijkstra emptyVertexGraph "A" "B") in
  distances (state c) !! ""%string = Some (Num (Fin 1)) ∧
  (next c).2 = false ∧
  currentVertex (state (next c).1) = Some ""%string ∧
  (next (nexts 7 c)).2 = false.
Proof.
  intros c.
  assert (Hg : graph c = emptyVertexGraph) by (vm_compute; reflexivity).
  assert (Hu : unvisted (state c) = ["B"%string]) by (vm_compute; reflexivity).
  assert (He : end_ c = "B"%string) by (vm_compute; reflexivity).
  destruct (empty_frontier c) as (H1 & H2 & H3).
  - rewrite Hu, He. by left.
  - vm_compute. reflexivity.
  - intros u. rewrite Hu. intros ->%list_elem_of_singleton.
    vm_compute. reflexivity.
  - rewrite Hu. by intros ?%list_elem_of_singleton.
  - split_and!; [vm_compute; reflexivity|exact H1|by rewrite H2|].
    apply H3; [vm_compute; reflexivity|].
    right. rewrite Hg, Hu, He. exact emptyVertexGraph_no_lead.
Defined.

(** ** Vertices leave [unvisted] for good *)

Lemma step_unvisted_sublist g en s s' b :
  step g en s s' b → unvisted s' `sublist_of` unvisted s.
Proof. destruct 1; simpl; try done. apply sublist_filter. Qed.

Lemma nexts_unvisted_sublist k c :
  unvisted (state (nexts k c)) `sublist_of` unvisted (state c).
Proof.
  revert c. induction k as [|k IH]; intros c; simpl; [done|].
  etrans; [apply IH|]. eapply step_unvisted_sublist, next_step.
Qed.

Lemma nexts_refs k c :
  start (nexts k c) = start c ∧ end_ (nexts k c) = end_ c ∧ graph (nexts k c) = graph c.
Proof.
  revert c. induction k as [|k IH]; intros c; simpl; [done|].
  destruct (IH (next c).1) as (-> & -> & ->). apply next_refs.
Qed.

(** X7: Finalize once: along any number of calls of [next], [unvisted] only
    loses elements and keeps the order of the others, so that a vertex that
    has left it never comes back and the page's list [visited] only grows. *)
Theorem finalized_for_good k c :
  unvisted (state (nexts k c)) `sublist_of` unvisted (state c) ∧
  (∀ v, v ∉ unvisted (state c) → v ∉ unvisted (state (nexts k c))) ∧
  (∀ v, v ∈ visited c → v ∈ visited (nexts k c)).
Proof.
  pose proof (nexts_unvisted_sublist k c) as Hsub.
  assert (Hin : ∀ v, v ∉ unvisted (state c) → v ∉ unvisted (state (nexts k c))).
  { intros v Hv Hv'. apply Hv. by eapply elem_of_sublist. }
  split_and!; [done|done|].
  intros v. unfold visited. destruct (nexts_refs k c) as (_ & _ & ->).
  rewrite !list_elem_of_filter, !includes_false. intros [? ?]. split; auto.
Qed.

(** ** The done signal *)

(** X8: [next] returns [true] exactly when [end] is not unvisited.  The first
    time it does, it sets [isDone] and clears [currentVertex]; from then on
    every call returns [true] again and leaves the composable as it is. *)
Theorem done_signal_latches c :
  ((next c).2 = true ↔ end_ c ∉ unvisted (state c)) ∧
  ((next c).2 = true →
   isDone (state (next c).1) = true ∧
   (isDone (state c) = false → currentVertex (state (next c).1) = None) ∧
   ∀ k, nexts k (next c).1 = (next c).1 ∧ (next (nexts k (next c).1)).2 = true).
Proof.
  assert (Hiff : (next c).2 = true ↔ end_ c ∉ unvisted (state c)).
  { rewrite (step_refl_done _ _ _ _ _ (next_step c)).
    rewrite negb_true_iff. apply includes_false. }
  split; [done|]. intros Hend%Hiff. apply includes_false in Hend.
  assert (Hfix : ∀ c', includes (unvisted (state c')) (end_ c') = false →
                       isDone (state c') = true → next c' = (c', true)).
  { intros c' H1 H2. unfold next. by rewrite H1, H2. }
  assert (Hc' : includes (unvisted (state (next c).1)) (end_ (next c).1) = false
                ∧ isDone (state (next c).1) = true
                ∧ (isDone (state c) = false →
                   currentVertex (state (next c).1) = None)).
  { unfold next. rewrite Hend. simpl.
    destruct (isDone (state c)) eqn:Hd; simpl; done. }
  destruct Hc' as (H1 & H2 & H3). split_and!; [done|done|].
  induction k as [|k [IH1 IH2]]; simpl.
  - by rewrite (Hfix _ H1 H2).
  - by rewrite (Hfix _ H1 H2).
Qed.

(** ** Distances are costs of walks *)

Lemma step_pending_from_graph g en s s' b :
  step g en s s' b → pending_from_graph g s → pending_from_graph g s'.
Proof.
  unfold pending_from_graph, pending.
  destruct 1 as [| | | |v e l ? ? HeL ?| |]; intros HP e'; simpl;
    try (by apply HP).
  - (* selection: the new edges are normalized edges of the graph *)
    intros [(_ & _ & e0 & He0 & ->)%connections_elem|He'].
    + exists e0. split; [done|]. apply normalize_touches.
    + apply HP. by right.
  - (* dequeue *)
    rewrite HeL in HP. intros [He'|[= <-]]; apply HP; left; [by right|by left].
  - (* relax *)
    intros [He'|He']; [|done]. apply HP. by left.
  - intros [He'|He']; [|done]. apply HP. by left.
Qed.

Lemma to_number_fin (d : gmap Id slot) v k z :
  clean d → number_add (to_number (d !! v)) (Fin k) = Fin z →
  d !! v = Some (Num (Fin (z - k))).
Proof.
  intros Hc. destruct (d !! v) as [x|] eqn:E; simpl; [|done].
  destruct (Hc _ _ E) as [->|[y ->]]; simpl; [done|].
  intros [= <-]. do 3 f_equal. lia.
Qed.

Lemma step_distances_sound g st en s s' b :
  step g en s s' b → clean (distances s) → pending_from_graph g s →
  distances_sound g st s → distances_sound g st s'.
Proof.
  unfold distances_sound.
  destruct 1 as [| | | | |v e ? ? HcE Hlt|]; intros Hc HP HS x z; simpl; try apply HS.
  destruct (decide (x = to e)) as [->|Hne].
  - rewrite lookup_insert_eq. intros [= Hz].
    destruct (HP e) as (e0 & He0 & Ht & Hcost); [by right|].
    apply (to_number_fin _ _ _ _ Hc) in Hz as Hfrom.
    apply HS in Hfrom.
    replace z with ((z - cost e) + cost e0)%Z by lia.
    by eapply walk_edge.
  - rewrite lookup_insert_ne by done. apply HS.
Qed.

Lemma step_clean g en s s' b :
  step g en s s' b → clean (distances s) → clean (distances s').
Proof.
  destruct 1 as [| | | | |v e ? ? HcE Hlt|]; intros Hc; simpl; try done.
  intros k x. destruct (decide (k = to e)) as [->|Hne].
  - rewrite lookup_insert_eq. intros [= <-].
    apply number_lt_fin in Hlt as [z ->]. eauto.
  - rewrite lookup_insert_ne by done. apply Hc.
Qed.

Lemma init_distances_sound g st : distances_sound g st (initDijkstra g st).
Proof.
  intros v z. simpl. rewrite initDistances_lookup.
  repeat case_decide; intros [= <-]. subst. constructor.
Qed.

Lemma reachable_sound g st en c :
  reachable g st en c →
  pending_from_graph g (state c) ∧ distances_sound g st (state c).
Proof.
  induction 1 as [|c Hr [IH1 IH2]].
  - split; [|apply init_distances_sound].
    intros e [He|He]; simpl in *; [by apply elem_of_nil in He|done].
  - destruct (reachable_refs _ _ _ _ Hr) as (_ & Hen & Hg).
    pose proof (next_step c) as Hs. rewrite Hen, Hg in Hs. split.
    + by eapply step_pending_from_graph.
    + eapply step_distances_sound; eauto. by eapply reachable_clean.
Qed.

(** ** What [next] reads *)

Lemma plain_names_proto g :
  plain_names g → "__proto__"%string ∉ Object_keys (vertices g).
Proof.
  intros Hp Hin. apply (Hp _ Hin). apply includes_true. reflexivity.
Qed.

Lemma reachable_recorded g st en c :
  reachable g st en c →
  (∀ u, u ∈ unvisted (state c) → u ∈ Object_keys (vertices g)) ∧
  (∀ u, u ∈ Object_keys (vertices g) → u ≠ "__proto__"%string →
        is_Some (distances (state c) !! u)) ∧
  (∀ e, pending (state c) e →
        (from e = ""%string ∨ is_Some (distances (state c) !! from e)) ∧
        to e ∈ Object_keys (vertices g)).
Proof.
  induction 1 as [|c Hr (IHu & IHd & IHp)].
  - split_and!; simpl; try done.
    + intros u Hu Hne. rewrite initDistances_lookup.
      rewrite decide_False by done. repeat case_decide; eauto; done.
    + intros e [He|He]; simpl in *; [by apply elem_of_nil in He|done].
  - destruct (reachable_refs _ _ _ _ Hr) as (_ & Hen & Hg).
    pose proof (next_step c) as Hs. rewrite Hen, Hg in Hs.
    destruct Hs as [| | | |v e l ? ? HeL ?|v e ? ? HcE Hlt ?|v e ? ? HcE ?];
      try done.
    + (* selection *)
      split_and!; simpl; try done.
      * intros u [_ Hu]%list_elem_of_filter. by apply IHu.
      * intros e [He|He]; [|apply IHp; by right]. simpl in He.
        apply connections_elem in He as (Hf & Ht & _). split; [|by apply IHu].
        rewrite Hf.
        destruct (scan_spec (distances (state c)) (unvisted (state c)))
          as [[-> _]|(pre & post & m & z & _ & -> & Hm & _)]; simpl;
          [by left|right; eauto].
    + (* dequeue *)
      split_and!; try done. unfold pending in *. simpl. rewrite HeL in IHp.
      intros e' [He'|[= <-]]; apply IHp; left; [by right|by left].
    + (* relaxation *)
      assert (Hkeep : ∀ u, is_Some (distances (state c) !! u) →
                is_Some (<[to e:=Num (number_add
                                        (to_number (distances (state c) !! from e))
                                        (Fin (cost e)))]>
                           (distances (state c)) !! u)).
      { intros u Hu. destruct (decide (u = to e)) as [->|Hne].
        - rewrite lookup_insert_eq. eauto.
        - by rewrite lookup_insert_ne. }
      split_and!; simpl; try done.
      * intros u Hu Hne. by apply Hkeep, IHd.
      * intros e' [He'|He']; [|done].
        destruct (IHp e') as [[?|?] ?]; [by left|split; [by left|done]|].
        split; [right; by apply Hkeep|done].
    + (* no improvement *)
      split_and!; try done. intros e' [He'|He']; [|done]. apply IHp. by left.
Qed.

(** X20: What the relax step reads: in every state reachable by calls of
    [next], an edge that is pending or under examination leaves from the
    empty identifier or from a vertex with a recorded distance, so that
    [distances[edge.from]] is never a member inherited from
    [Object.prototype]; it leads to a vertex of the graph, whose distance
    is recorded unless the vertex is named ['__proto__'], and for that
    vertex the test of the relax step fails whatever the sum. *)
Theorem examined_edge_recorded g st en c e :
  reachable g st en c → pending (state c) e →
  get (distances (state c)) (from e) = distances (state c) !! from e ∧
  to e ∈ Object_keys (vertices g) ∧
  (to e = "__proto__"%string ∨ is_Some (distances (state c) !! to e)) ∧
  (to e = "__proto__"%string →
   get (distances (state c)) (to e) = Some (Num NaN) ∧
   ∀ x, number_lt x (nullish (get (distances (state c)) (to e)) Infinity) = false).
Proof.
  intros Hr He. destruct (reachable_recorded _ _ _ _ Hr) as (_ & Hd & Hp).
  destruct (Hp e He) as [Hfrom Hto]. split_and!.
  - destruct Hfrom as [->|[x Hx]]; [apply get_empty|].
    rewrite Hx. by apply get_own.
  - done.
  - destruct (decide (to e = "__proto__"%string)); [by left|right; by apply Hd].
  - intros Heq.
    assert (Hg : get (distances (state c)) (to e) = Some (Num NaN)).
    { rewrite Heq. apply get_member.
      - by eapply reachable_no_proto.
      - apply includes_true. reflexivity. }
    split; [done|]. intros x. rewrite Hg. simpl. apply number_lt_nan.
Qed.

Lemma examined_edge_recorded_witness :
  let c := nexts 16 (useDijkstra defaultGraph "A" "D") in
  get (distances (state c)) "B" = distances (state c) !! "B"%string ∧
  "D"%string ∈ Object_keys (vertices defaultGraph).
Proof.
  intros c.
  destruct (examined_edge_recorded defaultGraph "A" "D" c (mkEdge "B" "D" 2))
    as (H1 & H2 & _).
  - apply reachable_nexts.
  - right. vm_compute. reflexivity.
  - split; [exact H1|exact H2].
Defined.

(** X21: Nothing is ever recorded for a vertex named ['__proto__']: in every
    state reachable by calls of [next], whatever the graph, [distances] has
    no entry under that name, and [previous] has one only if it is the
    start. *)
Theorem proto_never_recorded g st en c :
  reachable g st en c →
  distances (state c) !! "__proto__"%string = None ∧
  (st ≠ "__proto__"%string → previous (state c) !! "__proto__"%string = None).
Proof.
  intros Hr. split; [by eapply reachable_no_proto|].
  intros Hne. induction Hr as [|c Hr IH].
  - simpl. by rewrite lookup_singleton_ne.
  - pose proof (next_step c) as Hs.
    destruct Hs; simpl; try done. by apply lookup_assign_proto.
Qed.

Lemma proto_never_recorded_witness :
  let c := nexts 3 (useDijkstra protoGraph "B" "__proto__") in
  currentVertex (state c) = Some "B"%string ∧
  distances (state c) !! "__proto__"%string = None.
Proof.
  intros c. split; [vm_compute; reflexivity|].
  apply (proto_never_recorded protoGraph "B" "__proto__" c).
  apply reachable_nexts.
Defined.

(** ** Sums within the exact range *)

Lemma safe_nonnegative bound g : safe_costs bound g → nonnegative g.
Proof. intros (_ & Hc & _) e He. by destruct (Hc e He). Qed.

Lemma finalized_count_bounds g s :
  (finalized_count g s ≤ Z.of_nat (length (Object_keys (vertices g))))%Z.
Proof. unfold finalized_count. lia. Qed.

Section Safe.
Variables (bound : Z) (g : Graph) (st en : Id).
Hypothesis Hsafe : safe_costs bound g.

Lemma init_safe_inv : safe_inv bound g en (initDijkstra g st).
Proof.
  destruct Hsafe as (HB & _ & _).
  assert (Hz : ∀ u z, initDistances g st !! u = Some (Num (Fin z)) → z = 0%Z).
  { intros u z. rewrite initDistances_lookup. repeat case_decide; congruence. }
  split; simpl; try done.
  - intros u z Hu%Hz _. subst. unfold finalized_count. simpl. lia.
  - intros u z Hu%Hz. subst. unfold finalized_count. simpl. lia.
  - intros _ e [He|He]; simpl in *; [by apply elem_of_nil in He|done].
Qed.

Lemma step_safe_inv s s' b :
  step g en s s' b → clean (distances s) → pending_from_graph g s →
  safe_inv bound g en s → safe_inv bound g en s'.
Proof.
  intros Hstep Hclean HP [Hsub Hfin Hall Hcur Hpend].
  destruct Hsafe as (HB & Hcost & _).
  destruct Hstep as [Hend Hd|Hend Hd|Hend HcV|v Hend HcV HeL HcE
                     |v e l Hend HcV HeL HcE|v e Hend HcV HcE Hlt Hown
                     |v e Hend HcV HcE Hlt].
  - (* the end is noticed *)
    by split.
  - done.
  - (* selection *)
    set (m := (scan (distances s) (unvisted s)).1).
    assert (Hlen : length (filter (λ u, u ≠ m) (unvisted s)) ≤ length (unvisted s))
      by apply length_filter.
    assert (Hlt : m ∈ unvisted s →
              length (filter (λ u, u ≠ m) (unvisted s)) < length (unvisted s)).
    { intros Hm. apply (length_filter_lt _ _ m); [done|]. by intros ?. }
    split; simpl.
    + etrans; [apply sublist_filter|done].
    + intros u z Hu Hnot. unfold finalized_count in *. simpl.
      destruct (decide (u ∈ unvisted s)) as [Hin|Hin].
      * assert (u = m) as ->.
        { destruct (decide (u = m)) as [|Hne]; [done|].
          exfalso. apply Hnot. by apply list_elem_of_filter. }
        specialize (Hlt Hin). specialize (Hall _ _ Hu). nia.
      * specialize (Hfin _ _ Hu Hin). nia.
    + intros u z Hu. unfold finalized_count in *. simpl.
      specialize (Hall _ _ Hu). nia.
    + intros cur [= <-] [Hne _]%list_elem_of_filter. done.
    + intros _ e [He|He]; simpl in He.
      * apply connections_elem in He as (Hf & Ht & _). rewrite Hf.
        split; [done|].
        destruct (decide (to e = m)) as [|Hne]; [by right|].
        left. by apply list_elem_of_filter.
      * destruct (Hpend Hend e) as [? _]; [by right|congruence].
  - (* expansion completed *)
    split; try done.
    intros _ e [He|He]; simpl in He.
    + rewrite HeL in He. by apply elem_of_nil in He.
    + congruence.
  - (* dequeue *)
    split; try done. intros _ x Hx. simpl. apply Hpend; [done|].
    unfold pending in *. simpl in Hx. rewrite HeL.
    destruct Hx as [?|[= <-]]; left; [by right|by left].
  - (* relaxation *)
    destruct (Hpend Hend e) as [Hfrom Hto]; [by right|].
    destruct (HP e) as (e0 & He0 & _ & Hc0); [by right|].
    destruct (Hcost e0 He0) as [Hk0 HkB]. rewrite Hc0 in Hk0, HkB.
    destruct (number_lt_fin _ _ Hlt) as [z Hz]. rewrite Hz in *.
    pose proof (to_number_fin _ _ _ _ Hclean Hz) as Hsrc.
    assert (Hcv : from e ∉ unvisted s) by by apply Hcur.
    pose proof (Hfin _ _ Hsrc Hcv) as Hx.
    assert (Hw : to e ∈ unvisted s).
    { destruct Hto as [?|Heq]; [done|]. exfalso.
      rewrite Heq, Hsrc in Hlt. simpl in Hlt.
      apply bool_decide_eq_true in Hlt. lia. }
    split; simpl; try done.
    + intros u y Hu Hnot. apply (Hfin u); [|done].
      rewrite lookup_insert_ne in Hu; [done|]. by intros <-.
    + intros u y. unfold finalized_count in *. simpl.
      destruct (decide (u = to e)) as [->|Hne].
      * rewrite lookup_insert_eq. intros [= <-].
        rewrite Z.mul_add_distr_l, Z.mul_1_r. lia.
      * rewrite lookup_insert_ne by done. apply Hall.
    + intros _ x [Hx'|Hx']; [|done]. apply Hpend; [done|by left].
  - (* no improvement *)
    split; try done.
    intros _ x [Hx'|Hx']; [|done]. apply Hpend; [done|by left].
Qed.

Lemma reachable_safe_inv c :
  reachable g st en c → safe_inv bound g en (state c).
Proof.
  induction 1 as [|c Hr IH]; [apply init_safe_inv|].
  destruct (reachable_refs _ _ _ _ Hr) as (_ & Hen & Hg).
  pose proof (next_step c) as Hs. rewrite Hen, Hg in Hs.
  eapply step_safe_inv; eauto.
  - by eapply reachable_clean.
  - by apply (reachable_sound _ _ _ _ Hr).
Qed.

End Safe.

Lemma safe_distances bound g st en c v z :
  safe_costs bound g → reachable g st en c →
  distances (state c) !! v = Some (Num (Fin z)) →
  (0 ≤ z ≤ MAX_SAFE_INTEGER)%Z.
Proof.
  intros Hsafe Hr Hv.
  pose proof (reachable_safe_inv bound g st en Hsafe c Hr) as [_ _ Hall _ _].
  pose proof (finalized_count_bounds g (state c)) as Hcount.
  destruct Hsafe as (HB & _ & Hmax).
  specialize (Hall _ _ Hv). nia.
Qed.

(** X19: Sums stay exact: on a graph with [safe_costs], in every state
    reachable by calls of [next], every finite distance is an integer
    between 0 and [MAX_SAFE_INTEGER], and so is the sum
    [currentCost + edge.cost] that the relax step forms whenever
    [currentCost] is a finite number; when it is not, the sum is not
    either.  On such graphs the additions of doubles are exact. *)
Theorem sums_stay_safe bound g st en c :
  safe_costs bound g →
  reachable g st en c →
  (∀ v z, distances (state c) !! v = Some (Num (Fin z)) →
          (0 ≤ z ≤ MAX_SAFE_INTEGER)%Z) ∧
  (∀ e, currentEdge (state c) = Some e →
        (0 ≤ cost e ≤ MAX_SAFE_INTEGER)%Z ∧
        match to_number (get (distances (state c)) (from e)) with
        | Fin z => (0 ≤ z + cost e ≤ MAX_SAFE_INTEGER)%Z
        | other => number_add other (Fin (cost e)) = other
        end).
Proof.
  intros Hsafe Hr.
  pose proof (reachable_safe_inv bound g st en Hsafe c Hr)
    as [Hsub Hfin Hall Hcur Hpend].
  pose proof (finalized_count_bounds g (state c)) as Hcount.
  destruct Hsafe as (HB & Hcost & Hmax).
  split.
  - intros v z Hv. specialize (Hall _ _ Hv). nia.
  - intros e HcE.
    destruct (reachable_sound _ _ _ _ Hr) as [HP _].
    destruct (HP e) as (e0 & He0 & _ & Hc0); [by right|].
    destruct (Hcost e0 He0) as [Hk0 HkB]. rewrite Hc0 in Hk0, HkB.
    split; [nia|].
    destruct (to_number (get (distances (state c)) (from e))) as [z| |] eqn:E;
      [|done|done].
    apply to_number_get_fin in E as [_ E].
    assert (Hsrc : distances (state c) !! from e = Some (Num (Fin z))).
    { pose proof (reachable_clean _ _ _ _ Hr) as Hclean.
      destruct (distances (state c) !! from e) as [x|] eqn:Ex; [|done].
      destruct (Hclean _ _ Ex) as [->|[y ->]]; simpl in E; congruence. }
    destruct (reachable_phase_ok _ _ _ _ Hr) as [HE _].
    destruct (reachable_refs _ _ _ _ Hr) as (_ & Hen & _).
    destruct HE as [_ Hend]; [congruence|]. rewrite Hen in Hend.
    destruct (Hpend Hend e) as [Hfrom _]; [by right|].
    pose proof (Hfin _ _ Hsrc (Hcur _ Hfrom)). nia.
Qed.

Lemma defaultGraph_safe_costs : safe_costs 8 defaultGraph.
Proof.
  split_and!; [lia| |vm_compute; discriminate].
  intros e He. simpl in He.
  repeat (apply elem_of_cons in He as [->|He]; [simpl; lia|]).
  by apply elem_of_nil in He.
Qed.

Lemma sums_stay_safe_witness :
  let c := nexts 16 (useDijkstra defaultGraph "A" "D") in
  currentEdge (state c) = Some (mkEdge "B" "D" 2) ∧
  (0 ≤ 2 + 2 ≤ MAX_SAFE_INTEGER)%Z.
Proof.
  intros c.
  assert (HcE : currentEdge (state c) = Some (mkEdge "B" "D" 2))
    by (vm_compute; reflexivity).
  split; [exact HcE|].
  destruct (sums_stay_safe 8 defaultGraph "A" "D" c) as [_ H].
  - apply defaultGraph_safe_costs.
  - apply reachable_nexts.
  - destruct (H _ HcE) as [_ H']. exact H'.
Defined.

(** X1: Soundness of the distances: on a graph with [safe_costs], in every
    state reachable by calls of [next], a finite [distances[v]] is the
    total cost of a walk from [start] to [v] over edges of the graph, each
    taken in either direction, and an integer that a double holds
    exactly. *)
Theorem distance_is_walk_cost bound g st en c v z :
  safe_costs bound g →
  reachable g st en c →
  distances (state c) !! v = Some (Num (Fin z)) →
  walk g st v z ∧ (0 ≤ z ≤ MAX_SAFE_INTEGER)%Z.
Proof.
  intros Hsafe Hr Hv. split.
  - by apply (reachable_sound _ _ _ _ Hr).
  - by eapply safe_distances.
Qed.

Lemma distance_is_walk_cost_witness :
  walk defaultGraph "A" "D" 4 ∧ (0 ≤ 4 ≤ MAX_SAFE_INTEGER)%Z.
Proof.
  apply (distance_is_walk_cost 8 defaultGraph "A" "D"
           (nexts 20 (useDijkstra defaultGraph "A" "D"))).
  - apply defaultGraph_safe_costs.
  - apply reachable_nexts.
  - vm_compute. reflexivity.
Defined.

(** ** Arithmetic on distances *)

Ltac num_crush :=
  repeat match goal with x : number |- _ => destruct x end;
  simpl in *; repeat case_bool_decide; try done; try lia.

Lemma number_le_trans a b c :
  number_le a b = true → number_le b c = true → number_le a c = true.
Proof. num_crush. Qed.

Lemma number_le_total a b :
  a ≠ NaN → b ≠ NaN → number_lt b a = false → number_le a b = true.
Proof. num_crush. Qed.

Lemma number_le_add a b k :
  (0 ≤ k)%Z → number_le a b = true → number_le a (number_add b (Fin k)) = true.
Proof. num_crush. Qed.

Lemma number_le_add_fin a k k' :
  (0 ≤ k')%Z → number_le a (Fin k) = true → number_le a (Fin (k + k')) = true.
Proof. num_crush. Qed.

Lemma number_le_add_mono a b k :
  number_le a b = true →
  number_le (number_add a (Fin k)) (number_add b (Fin k)) = true.
Proof. num_crush. Qed.

Lemma number_lt_add_le a b k :
  (0 ≤ k)%Z → number_le b a = true → number_lt (number_add a (Fin k)) b = false.
Proof. num_crush. Qed.

Lemma number_le_infinity a : a ≠ NaN → number_le a Infinity = true.
Proof. num_crush. Qed.

Lemma number_le_fin_inv a k :
  number_le a (Fin k) = true → ∃ z, a = Fin z ∧ (z ≤ k)%Z.
Proof. destruct a; simpl; try done. intros H%bool_decide_eq_true. eauto. Qed.

Lemma number_lt_le_trans a b c :
  number_lt a b = true → number_le b c = true → number_le a c = true.
Proof. num_crush. Qed.

Lemma nullish_to_number v k x :
  (∀ n, v = Some (Num n) → n ≠ NaN) → v ≠ Some Null →
  (number_lt (number_add (to_number v) (Fin k)) x = true →
   number_add (to_number v) (Fin k) = number_add (nullish v Infinity) (Fin k)) ∧
  (number_lt (number_add (to_number v) (Fin k)) x = false → x ≠ NaN →
   number_le x (number_add (nullish v Infinity) (Fin k)) = true).
Proof.
  intros Hn Hnull. destruct v as [[n|]|]; simpl; [| |].
  - specialize (Hn n eq_refl). split; [done|]. revert Hn. num_crush.
  - done.
  - split; [done|]. intros _. by destruct x.
Qed.

Lemma clean_lookup (d : gmap Id slot) v :
  clean d → (∀ n, d !! v = Some (Num n) → n ≠ NaN) ∧ d !! v ≠ Some Null.
Proof.
  intros Hc. split.
  - intros n E. by destruct (Hc _ _ E) as [[= ->]|[z [= ->]]].
  - intros E. by destruct (Hc _ _ E) as [?|[z ?]].
Qed.

(** ** The frontier *)

Lemma clean_nullish (d : gmap Id slot) v : clean d → nullish (d !! v) Infinity ≠ NaN.
Proof.
  intros Hc. destruct (d !! v) as [[n|]|] eqn:E; simpl; try done.
  by apply (clean_lookup d v Hc).
Qed.

Lemma not_lt_infinity a : a ≠ NaN → number_lt a Infinity = false → a = Infinity.
Proof. by destruct a. Qed.

Lemma scan_min (d : gmap Id slot) unv u :
  clean d → u ∈ unv →
  number_le (nullish (d !! (scan d unv).1) Infinity)
            (nullish (d !! u) Infinity) = true.
Proof.
  intros Hc Hu. pose proof (clean_nullish d u Hc) as Hn.
  destruct (scan_spec d unv)
    as [[-> Hall]|(pre & post & m & z & -> & -> & Hm & Hpre & Hpost)];
    cbn [fst].
  - rewrite (not_lt_infinity _ Hn (Hall _ Hu)).
    apply number_le_infinity, clean_nullish, Hc.
  - rewrite Hm. cbn [nullish]. apply number_le_total; [done|done|].
    apply elem_of_app in Hu as [Hu|[->|Hu]%elem_of_cons].
    + by apply Hpre.
    + rewrite Hm. simpl. apply bool_decide_eq_false. lia.
    + by apply Hpost.
Qed.

Lemma scan_member (d : gmap Id slot) unv :
  clean d →
  (scan d unv).1 ∈ unv ∨
  ((scan d unv).1 = ""%string ∧ ∀ u, u ∈ unv → nullish (d !! u) Infinity = Infinity).
Proof.
  intros Hc.
  destruct (scan_spec d unv)
    as [[-> Hall]|(pre & post & m & z & -> & -> & _)]; simpl.
  - right. split; [done|]. intros u Hu.
    apply not_lt_infinity; [by apply clean_nullish|by apply Hall].
  - left. apply elem_of_app. right. by left.
Qed.

Lemma connections_intro g m unv e0 w :
  e0 ∈ edges g → touches e0 m w → w ∈ unv →
  {| from := m; to := w; cost := cost e0 |} ∈ connections g m unv.
Proof.
  intros He0 Ht Hw. unfold connections. apply list_elem_of_filter. split.
  - split; [done|]. by apply includes_true.
  - apply list_elem_of_fmap. exists e0. split; [|done].
    unfold normalize, touches in *. destruct e0 as [a b k]. simpl in *.
    destruct Ht as [[<- <-]|[<- <-]].
    + destruct (decide (b = a)) as [->|?]; done.
    + by rewrite decide_True.
Qed.

Lemma walk_nonnegative g st v k : nonnegative g → walk g st v k → (0 ≤ k)%Z.
Proof.
  intros Hnn. induction 1 as [|v w k e _ IH He _]; [done|].
  specialize (Hnn e He). lia.
Qed.

Lemma walk_in_graph g st v k :
  well_formed g → st ∈ Object_keys (vertices g) → walk g st v k →
  v ∈ Object_keys (vertices g).
Proof.
  intros Hwf Hst. induction 1 as [|v w k e _ _ He Ht]; [done|].
  destruct (Hwf e He) as [? ?]. destruct Ht as [[_ <-]|[_ <-]]; done.
Qed.

Section Search.
Variables (g : Graph) (st en : Id).
Hypothesis Hwf : well_formed g.
Hypothesis Hnn : nonnegative g.
Hypothesis Hst : st ∈ Object_keys (vertices g).
Hypothesis Hplain : plain_names g.

(** Between two expansions, a walk to an unvisited vertex has to leave the
    finalized vertices somewhere, and the first unvisited vertex it meets is
    at most as far as the walk is long. *)
Lemma frontier_reached s w k :
  search_inv g st en s → en ∈ unvisted s → currentVertex s = None →
  walk g st w k → w ∈ unvisted s →
  ∃ y, y ∈ unvisted s ∧ number_le (dist_of s y) (Fin k) = true.
Proof.
  intros Hinv Hlive HcV Hwalk. pose proof (si_live _ _ _ _ Hinv Hlive) as HL.
  induction Hwalk as [|v w k e Hwalk IH He Ht]; intros Hw.
  - exists st. split; [done|]. apply (si_start _ _ _ _ Hinv).
  - pose proof (Hnn e He) as Hc.
    destruct (decide (v ∈ unvisted s)) as [Hv|Hv].
    + destruct (IH Hv) as (y & Hy & Hle). exists y. split; [done|].
      by apply number_le_add_fin.
    + assert (Hfin : finalized g s v).
      { split; [|done]. by eapply walk_in_graph. }
      exists w. split; [done|].
      destruct (li_relaxed _ _ HL v e w Hfin He Ht) as [Hle|[Hcur _]];
        [|congruence].
      eapply number_le_trans; [exact Hle|].
      pose proof (si_optimal _ _ _ _ Hinv v k Hfin Hwalk) as Hv'.
      apply (number_le_add_mono _ _ (cost e)) in Hv'. exact Hv'.
Qed.

Lemma inv_frozen s s' :
  search_inv g st en s → en ∉ unvisted s →
  unvisted s' = unvisted s → distances s' = distances s →
  edgesLeft s' = edgesLeft s → currentEdge s' = currentEdge s →
  currentVertex s' = None →
  search_inv g st en s'.
Proof.
  intros [] Hend Hu Hd HeL HcE HcV.
  split; unfold dist_of, finalized, pending_from_graph, pending, distances_sound in *;
    rewrite ?Hu, ?Hd, ?HeL, ?HcE, ?HcV; try done.
Qed.

Lemma inv_expanded s :
  search_inv g st en s → en ∈ unvisted s →
  edgesLeft s = [] → currentEdge s = None →
  search_inv g st en (set_currentVertex None s).
Proof.
  intros [] Hend HeL HcE. specialize (si_live0 Hend). destruct si_live0.
  split; try done.
  intros _. split; simpl; try done.
  - intros u e0 w Hu He0 Ht. left.
    destruct (li_relaxed0 u e0 w Hu He0 Ht) as [?|[_ [Hp|Hp]]]; [done| |].
    + rewrite HeL in Hp. by apply elem_of_nil in Hp.
    + congruence.
  - intros e [Hp|Hp]; simpl in Hp.
    + rewrite HeL in Hp. by apply elem_of_nil in Hp.
    + congruence.
Qed.

Lemma inv_dequeue s v e l :
  search_inv g st en s → en ∈ unvisted s → currentVertex s = Some v →
  edgesLeft s = e :: l → currentEdge s = None →
  search_inv g st en (set_edgesLeft l (set_currentEdge (Some e) s)).
Proof.
  intros [] Hend HcV HeL HcE. specialize (si_live0 Hend). destruct si_live0.
  assert (Hp : ∀ x, pending (set_edgesLeft l (set_currentEdge (Some e) s)) x →
                    pending s x).
  { unfold pending. simpl. rewrite HeL.
    intros x [Hx|[= <-]]; left; [by right|by left]. }
  split; try done.
  - intros x Hx%Hp. by apply si_pending0.
  - intros _. split; simpl; try done.
    + intros cur Hcur. left.
      destruct (li_current0 cur Hcur) as [?|[? _]]; [done|congruence].
    + intros u e0 w Hu He0 Ht.
      destruct (li_relaxed0 u e0 w Hu He0 Ht) as [?|[? [Hx|Hx]]]; [by left| |].
      * right. split; [done|]. unfold pending. simpl. rewrite HeL in Hx.
        apply elem_of_cons in Hx as [<-|Hx]; [by right|by left].
      * congruence.
    + intros x Hx%Hp. by apply li_pending0.
    + congruence.
Qed.

Lemma inv_keep s v e :
  search_inv g st en s → en ∈ unvisted s → currentVertex s = Some v →
  currentEdge s = Some e →
  number_lt (number_add (to_number (distances s !! from e)) (Fin (cost e)))
            (nullish (distances s !! to e) Infinity) = false ∨
  (to e ∈ Object_prototype ∧ distances s !! to e = None) →
  search_inv g st en (set_currentEdge None s).
Proof.
  intros [] Hend HcV HcE Hlt'. specialize (si_live0 Hend). destruct si_live0.
  assert (Hlt : number_lt (number_add (to_number (distances s !! from e))
                                      (Fin (cost e)))
                          (nullish (distances s !! to e) Infinity) = false).
  { destruct Hlt' as [?|[_ Hnone]]; [done|]. exfalso.
    destruct (si_pending0 e) as (e0 & He0 & Ht & _); [by right|].
    destruct (Hwf e0 He0) as [? ?].
    assert (Hin : to e ∈ Object_keys (vertices g)).
    { destruct Ht as [[_ <-]|[_ <-]]; done. }
    destruct (si_own0 _ Hin) as [? ?]. congruence. }
  clear Hlt'.
  assert (Hp : ∀ x, pending (set_currentEdge None s) x → pending s x).
  { unfold pending. simpl. intros x [Hx|Hx]; [by left|done]. }
  split; try done.
  - intros x Hx%Hp. by apply si_pending0.
  - intros _. split; simpl; try done.
    + intros cur Hcur. left.
      destruct (li_current0 cur Hcur) as [?|[_ ?]]; [done|congruence].
    + intros u e0 w Hu He0 Ht.
      destruct (li_relaxed0 u e0 w Hu He0 Ht) as [?|[? [Hx|Hx]]]; [by left| |].
      * right. split; [done|]. by left.
      * left. rewrite HcE in Hx. injection Hx as ->. simpl in Hlt.
        destruct (clean_lookup (distances s) u si_clean0) as [H1 H2].
        apply (nullish_to_number _ _ _ H1 H2); [done|].
        by apply clean_nullish.
    + intros x Hx%Hp. by apply li_pending0.
Qed.

Lemma dist_of_relax s p w n x :
  dist_of (set_currentEdge None
             (set_previous p (set_distances (<[w := Num n]> (distances s)) s))) x
  = if decide (x = w) then n else dist_of s x.
Proof.
  unfold dist_of. simpl. case_decide as Hx.
  - subst. by rewrite lookup_insert_eq.
  - by rewrite lookup_insert_ne.
Qed.

Lemma inv_relax s v e s' :
  search_inv g st en s → en ∈ unvisted s → currentVertex s = Some v →
  currentEdge s = Some e →
  number_lt (number_add (to_number (distances s !! from e)) (Fin (cost e)))
            (nullish (distances s !! to e) Infinity) = true →
  s' = set_currentEdge None
         (set_previous (assign (to e) (Some (from e)) (previous s))
            (set_distances
               (<[to e := Num (number_add (to_number (distances s !! from e))
                                          (Fin (cost e)))]> (distances s)) s)) →
  clean (distances s') → distances_sound g st s' →
  search_inv g st en s'.
Proof.
  intros [] Hend HcV HcE Hlt -> Hclean Hsound.
  specialize (si_live0 Hend). destruct si_live0.
  assert (Hp : ∀ x s1 s2, pending (set_currentEdge None (set_previous s1 (set_distances s2 s))) x →
                    pending s x).
  { unfold pending. simpl. intros x _ _ [Hx|Hx]; [by left|done]. }
  (* the edge under examination *)
  assert (Hpe : pending s e) by by right.
  pose proof (li_pending0 e Hpe) as Hcur. rewrite HcV in Hcur.
  injection Hcur as ->.
  destruct (si_pending0 e Hpe) as (e0 & He0 & Ht & Hcost).
  pose proof (Hnn e0 He0) as Hk. rewrite Hcost in Hk.
  destruct (clean_lookup (distances s) (from e) si_clean0) as [H1 H2].
  destruct (nullish_to_number _ (cost e) (nullish (distances s !! to e) Infinity)
              H1 H2) as [Hnew _].
  specialize (Hnew Hlt). rewrite Hnew in *. clear H1 H2 Hnew.
  fold (dist_of s (from e)) in *. fold (dist_of s (to e)) in *.
  (* the edge leaves the farthest finalized vertex *)
  assert (Hfar : ∀ u, finalized g s u →
                      number_le (dist_of s u) (dist_of s (from e)) = true).
  { destruct (li_current0 _ HcV) as [?|[_ ?]]; [done|congruence]. }
  assert (Hw : to e ∈ unvisted s).
  { destruct (decide (to e ∈ unvisted s)) as [|Hn]; [done|]. exfalso.
    assert (finalized g s (to e)) as Hf.
    { split; [|done]. destruct (Hwf e0 He0) as [? ?].
      destruct Ht as [[_ <-]|[_ <-]]; done. }
    pose proof (number_lt_add_le _ _ _ Hk (Hfar _ Hf)). congruence. }
  assert (Hfw : ∀ u, finalized g s u → u ≠ to e).
  { intros u [_ Hu] ->. done. }
  assert (Hcw : from e ≠ to e).
  { intros Heq. apply (si_current0 _ HcV). by rewrite Heq. }
  split; try done.
  - intros u Hu. simpl. destruct (decide (u = to e)) as [->|Hne].
    + rewrite lookup_insert_eq. eauto.
    + rewrite lookup_insert_ne by done. by apply si_own0.
  - rewrite dist_of_relax. case_decide; [|done]. subst.
    by eapply number_lt_le_trans.
  - intros x Hx%Hp. by apply si_pending0.
  - intros u k Hu Hwalk. rewrite dist_of_relax.
    rewrite decide_False by by apply Hfw. by apply si_optimal0.
  - intros _. split; simpl; try done.
    + intros u w Hu Hw'. rewrite !dist_of_relax.
      rewrite (decide_False (P := u = to e)) by by apply Hfw.
      case_decide; [|by apply li_order0].
      apply number_le_add; [done|]. by apply Hfar.
    + intros cur Hcur. left. rewrite HcV in Hcur. injection Hcur as <-.
      intros u Hu. rewrite !dist_of_relax.
      rewrite (decide_False (P := u = to e)) by by apply Hfw.
      rewrite decide_False by done. by apply Hfar.
    + intros u e1 w Hu He1 Ht1. rewrite !dist_of_relax.
      rewrite (decide_False (P := u = to e)) by by apply Hfw.
      destruct (li_relaxed0 u e1 w Hu He1 Ht1) as [Hle|[? [Hx|Hx]]].
      * left. case_decide; [|done]. subst.
        eapply number_lt_le_trans; [exact Hlt|exact Hle].
      * right. split; [done|]. by left.
      * left. rewrite HcE in Hx. injection Hx as Hx.
        apply (f_equal from) in Hx as Hxf. apply (f_equal to) in Hx as Hxt.
        apply (f_equal cost) in Hx as Hxc. simpl in Hxf, Hxt, Hxc.
        rewrite <- Hxf, <- Hxt, <- Hxc. rewrite decide_True by done.
        apply number_le_refl. by destruct (number_lt_fin _ _ Hlt) as [z ->].
    + intros x Hx%Hp. by apply li_pending0.
Qed.

Lemma touches_in_graph e0 u w :
  e0 ∈ edges g → touches e0 u w →
  u ∈ Object_keys (vertices g) ∧ w ∈ Object_keys (vertices g).
Proof.
  intros He0 Ht. destruct (Hwf e0 He0) as [? ?].
  destruct Ht as [[<- <-]|[<- <-]]; done.
Qed.

Lemma inv_select s s' :
  search_inv g st en s → en ∈ unvisted s → currentVertex s = None →
  s' = set_unvisted
         (filter (λ u, u ≠ (scan (distances s) (unvisted s)).1) (unvisted s))
         (set_edgesLeft
            (connections g (scan (distances s) (unvisted s)).1 (unvisted s))
            (set_currentVertex (Some (scan (distances s) (unvisted s)).1) s)) →
  pending_from_graph g s' →
  search_inv g st en s'.
Proof.
  intros Hinv Hend HcV Hs' Hpend. pose proof Hinv as [].
  specialize (si_live0 Hend). destruct si_live0.
  set (m := (scan (distances s) (unvisted s)).1) in *.
  pose proof (li_phase0 HcV) as HcE.
  assert (Hun : unvisted s' = filter (λ u, u ≠ m) (unvisted s)) by by subst s'.
  assert (HcV' : currentVertex s' = Some m) by by subst s'.
  assert (HeL' : edgesLeft s' = connections g m (unvisted s)) by by subst s'.
  assert (HcE' : currentEdge s' = None) by by subst s'.
  assert (Hd : ∀ x, dist_of s' x = dist_of s x) by by subst s'.
  assert (Hds : distances s' = distances s) by by subst s'.
  clear Hs'.
  assert (Hmin : ∀ u, u ∈ unvisted s →
                      number_le (dist_of s m) (dist_of s u) = true).
  { intros u Hu. by apply scan_min. }
  assert (Hrel : ∀ u e0 w, finalized g s u → e0 ∈ edges g → touches e0 u w →
            number_le (dist_of s w)
                      (number_add (dist_of s u) (Fin (cost e0))) = true).
  { intros u e0 w Hu He0 Ht.
    destruct (li_relaxed0 u e0 w Hu He0 Ht) as [?|[? _]]; [done|congruence]. }
  assert (Hfin : ∀ u, finalized g s' u →
                      finalized g s u ∨ (u = m ∧ m ∈ unvisted s)).
  { intros u [Hk Hu]. rewrite Hun in Hu.
    destruct (decide (u ∈ unvisted s)) as [Hin|Hin].
    - right. destruct (decide (u = m)) as [->|Hne]; [done|].
      exfalso. apply Hu. by apply list_elem_of_filter.
    - by left. }
  assert (Hpe : ∀ x, pending s' x → x ∈ connections g m (unvisted s)).
  { unfold pending. rewrite HeL', HcE'. intros x [?|?]; [done|congruence]. }
  assert (Hrefl : number_le (dist_of s m) (dist_of s m) = true).
  { apply number_le_refl. by apply clean_dist_of. }
  split.
  - by rewrite Hds.
  - by rewrite Hds.
  - intros u. rewrite Hun. intros [_ Hu]%list_elem_of_filter.
    by apply si_unvisted0.
  - by rewrite Hd.
  - intros cur. rewrite HcV', Hun. intros [= <-] [Hne _]%list_elem_of_filter.
    done.
  - done.
  - unfold distances_sound. by rewrite Hds.
  - intros u k [Hu|[-> Hm]]%Hfin Hwalk; rewrite Hd; [by apply si_optimal0|].
    destruct (frontier_reached s m k Hinv Hend HcV Hwalk Hm) as (y & Hy & Hle).
    eapply number_le_trans; [by apply Hmin|done].
  - intros _. split.
    + intros u w [Hu|[-> Hm]]%Hfin. rewrite Hun, !Hd.
      * intros [_ Hw]%list_elem_of_filter. by apply li_order0.
      * rewrite Hun, !Hd. intros [_ Hw]%list_elem_of_filter. by apply Hmin.
    + intros cur. rewrite HcV', HeL', HcE'. intros [= <-].
      destruct (decide (m ∈ unvisted s)) as [Hin|Hin].
      { left. intros u [Hu|[-> _]]%Hfin; rewrite !Hd; [by apply li_order0|done]. }
      destruct (scan_member (distances s) (unvisted s) si_clean0)
        as [Hm|[Hm Hinf]]; fold m in Hm; [done|].
      destruct (dist_of s m) as [z| |] eqn:Hdm.
      * right. split; [|done].
        destruct (connections g m (unvisted s)) as [|x l] eqn:Hc; [done|].
        exfalso.
        assert (Hx : x ∈ connections g m (unvisted s)) by (rewrite Hc; by left).
        apply connections_elem in Hx as (Hxf & Hxt & e0 & He0 & ->).
        destruct (normalize_touches m e0) as [Ht _].
        rewrite Hxf in Ht.
        assert (Hfm : finalized g s m).
        { split; [|done]. by destruct (touches_in_graph _ _ _ He0 Ht). }
        pose proof (Hrel _ _ _ Hfm He0 Ht) as Hle.
        unfold dist_of in Hle at 1. rewrite (Hinf _ Hxt), Hdm in Hle. done.
      * left. intros u _. rewrite !Hd, Hdm.
        apply number_le_infinity. by apply clean_dist_of.
      * by destruct (clean_dist_of s m si_clean0).
    + intros u e0 w [Hu|[-> Hm]]%Hfin He0 Ht; rewrite !Hd;
        [left; by apply Hrel|].
      destruct (decide (w ∈ unvisted s)) as [Hw|Hw].
      * right. split; [done|]. left. rewrite HeL'. by apply connections_intro.
      * left. apply number_le_add; [by apply Hnn|].
        apply li_order0; [|done]. split; [|done].
        by destruct (touches_in_graph _ _ _ He0 Ht).
    + intros x Hx%Hpe. rewrite HcV'.
      by apply connections_elem in Hx as (-> & _).
    + by rewrite HcV'.
Qed.

Lemma step_search_inv s s' b :
  step g en s s' b → search_inv g st en s → search_inv g st en s'.
Proof.
  intros Hstep Hinv.
  pose proof (step_clean _ _ _ _ _ Hstep (si_clean _ _ _ _ Hinv)) as Hc.
  pose proof (step_pending_from_graph _ _ _ _ _ Hstep (si_pending _ _ _ _ Hinv)) as Hp.
  pose proof (step_distances_sound _ st _ _ _ _ Hstep (si_clean _ _ _ _ Hinv)
                (si_pending _ _ _ _ Hinv) (si_sound _ _ _ _ Hinv)) as Hs.
  destruct Hstep.
  - by apply (inv_frozen s).
  - done.
  - by apply (inv_select s).
  - by apply inv_expanded.
  - by eapply inv_dequeue.
  - by eapply inv_relax.
  - by eapply inv_keep.
Qed.

Lemma init_search_inv : search_inv g st en (initDijkstra g st).
Proof.
  assert (Hnone : ∀ u, ¬ finalized g (initDijkstra g st) u).
  { intros u [? ?]. done. }
  pose proof (plain_names_proto g Hplain) as Hproto.
  assert (Hne : st ≠ "__proto__"%string) by (intros ->; by apply Hproto).
  split; simpl; try done.
  - apply initDistances_clean.
  - intros u Hu. rewrite initDistances_lookup.
    rewrite decide_False by (intros ->; by apply Hproto).
    repeat case_decide; eauto; done.
  - unfold dist_of. simpl. rewrite initDistances_lookup.
    rewrite decide_False by done. by rewrite decide_True.
  - intros e [He|He]; simpl in *; [by apply elem_of_nil in He|done].
  - apply init_distances_sound.
  - intros u k Hu. by destruct (Hnone u).
  - intros _. split; simpl; try done.
    + intros u w Hu. by destruct (Hnone u).
    + intros u e0 w Hu. by destruct (Hnone u).
    + intros e [He|He]; simpl in *; [by apply elem_of_nil in He|done].
Qed.

Lemma reachable_search_inv c :
  reachable g st en c → search_inv g st en (state c).
Proof.
  induction 1 as [|c Hr IH]; [apply init_search_inv|].
  destruct (reachable_refs _ _ _ _ Hr) as (_ & Hen & Hg).
  pose proof (next_step c) as Hs. rewrite Hen, Hg in Hs.
  by eapply step_search_inv.
Qed.

(** While [end] can be reached and is still unvisited, every call of [next]
    reduces the work that is left. *)
Lemma step_work_left s s' b k :
  search_inv g st en s → en ∈ unvisted s → walk g st en k →
  step g en s s' b → work_left g s' < work_left g s.
Proof.
  intros Hinv Hend Hwalk Hstep. pose proof (si_live _ _ _ _ Hinv Hend) as HL.
  unfold work_left.
  destruct Hstep as [| |_ HcV|v _ HcV HeL HcE|v e l _ HcV HeL HcE
                     |v e _ HcV HcE _|v e _ HcV HcE _]; simpl;
    try done; rewrite ?HcV, ?HeL, ?HcE; simpl; try lia.
  (* selection: some unvisited vertex has a finite distance *)
  rewrite (li_phase _ _ HL HcV). simpl.
  destruct (frontier_reached s en k Hinv Hend HcV Hwalk Hend) as (y & Hy & Hle).
  set (m := (scan (distances s) (unvisted s)).1).
  assert (Hm : m ∈ unvisted s).
  { destruct (scan_member (distances s) (unvisted s) (si_clean _ _ _ _ Hinv))
      as [?|[_ Hinf]]; [done|].
    unfold dist_of in Hle. by rewrite (Hinf _ Hy) in Hle. }
  assert (Hlen : length (filter (λ u, u ≠ m) (unvisted s)) < length (unvisted s)).
  { apply (length_filter_lt _ _ m); [done|]. by intros ?. }
  assert (Hconn : length (connections g m (unvisted s)) ≤ length (edges g)).
  { unfold connections. etrans; [apply length_filter|]. by rewrite length_fmap. }
  nia.
Qed.

Lemma work_left_bound c n :
  (∃ k, walk g st en k) → reachable g st en c →
  work_left g (state c) ≤ n →
  ∃ j, j ≤ n ∧ en ∉ unvisted (state (nexts j c)).
Proof.
  intros [k Hwalk]. revert c. induction n as [|n IH]; intros c Hr Hn.
  - destruct (decide (en ∈ unvisted (state c))) as [Hend|Hend].
    + exfalso.
      destruct (reachable_refs _ _ _ _ Hr) as (_ & Hen & Hg).
      pose proof (next_step c) as Hs. rewrite Hen, Hg in Hs.
      pose proof (step_work_left _ _ _ _ (reachable_search_inv c Hr) Hend Hwalk Hs).
      lia.
    + by exists 0.
  - destruct (decide (en ∈ unvisted (state c))) as [Hend|Hend].
    + destruct (reachable_refs _ _ _ _ Hr) as (_ & Hen & Hg).
      pose proof (next_step c) as Hs. rewrite Hen, Hg in Hs.
      pose proof (step_work_left _ _ _ _ (reachable_search_inv c Hr) Hend Hwalk Hs).
      destruct (IH (next c).1) as (j & Hj & Hdone); [by constructor|lia|].
      exists (S j). split; [lia|done].
    + exists 0. split; [lia|done].
Qed.

End Search.

(** ** Shortest distances *)

Lemma visited_finalized g st en c v :
  reachable g st en c → v ∈ visited c → finalized g (state c) v.
Proof.
  intros Hr. destruct (reachable_refs _ _ _ _ Hr) as (_ & _ & Hg).
  unfold visited. rewrite Hg, list_elem_of_filter, includes_false.
  by intros [? ?].
Qed.

Lemma finalized_shortest g st en c v :
  well_formed g → nonnegative g → st ∈ Object_keys (vertices g) →
  plain_names g →
  reachable g st en c → finalized g (state c) v →
  ∀ k, walk g st v k →
       ∃ z, distances (state c) !! v = Some (Num (Fin z)) ∧ (z ≤ k)%Z ∧
            walk g st v z ∧ ∀ k', walk g st v k' → (z ≤ k')%Z.
Proof.
  intros Hwf Hnn Hst Hproto Hr Hv k Hwalk.
  pose proof (reachable_search_inv g st en Hwf Hnn Hst Hproto c Hr) as Hinv.
  pose proof (si_optimal _ _ _ _ Hinv v k Hv Hwalk) as Hle.
  apply number_le_fin_inv in Hle as (z & Hz & Hzk).
  apply nullish_fin in Hz as Hz'. exists z. split_and!; try done.
  - by apply (si_sound _ _ _ _ Hinv).
  - intros k' Hwalk'.
    pose proof (si_optimal _ _ _ _ Hinv v k' Hv Hwalk') as Hle'.
    unfold dist_of in Hle'. rewrite Hz' in Hle'. simpl in Hle'.
    by apply bool_decide_eq_true in Hle'.
Qed.

(** X2: Optimality: on a graph with [safe_costs] and [plain_names] whose
    edges join vertices of the graph and whose vertices include [start],
    every vertex the page lists as visited holds the cost of a shortest
    walk from [start] in [distances], and [Infinity] if no walk leads to
    it. *)
Theorem finalized_distance_is_shortest bound g st en c v :
  well_formed g → plain_names g → safe_costs bound g →
  st ∈ Object_keys (vertices g) →
  reachable g st en c → v ∈ visited c →
  (∀ k, walk g st v k →
        ∃ z, distances (state c) !! v = Some (Num (Fin z)) ∧ (z ≤ k)%Z ∧
             walk g st v z ∧ ∀ k', walk g st v k' → (z ≤ k')%Z) ∧
  ((∀ k, ¬ walk g st v k) → dist_of (state c) v = Infinity).
Proof.
  intros Hwf Hproto Hnn%safe_nonnegative Hst Hr Hv. split.
  - apply (finalized_shortest g st en); try done. by eapply visited_finalized.
  - intros Hno.
    pose proof (reachable_sound _ _ _ _ Hr) as [_ Hs].
    pose proof (clean_dist_of (state c) v (reachable_clean _ _ _ _ Hr)) as Hn.
    destruct (dist_of (state c) v) as [z| |] eqn:E; [|done|done].
    apply nullish_fin in E. apply Hs in E. by destruct (Hno z).
Qed.

Lemma defaultGraph_well_formed : well_formed defaultGraph.
Proof.
  intros e He. simpl in He.
  repeat (apply elem_of_cons in He as [->|He];
          [split; apply includes_true; vm_compute; reflexivity|]).
  by apply elem_of_nil in He.
Qed.

Lemma defaultGraph_plain_names : plain_names defaultGraph.
Proof.
  intros v Hv. simpl in Hv.
  repeat (apply elem_of_cons in Hv as [->|Hv];
          [apply includes_false; reflexivity|]).
  by apply elem_of_nil in Hv.
Qed.

Lemma defaultGraph_walk_A_D : walk defaultGraph "A" "D" (0 + 2 + 2).
Proof.
  apply (walk_edge _ _ "B" "D" _ (mkEdge "B" "D" 2)).
  - apply (walk_edge _ _ "A" "B" _ (mkEdge "A" "B" 2)); [constructor| |by left].
    simpl. left.
  - simpl. do 3 right. left.
  - by left.
Qed.

Lemma finalized_distance_is_shortest_witness :
  ∃ z, distances (state (nexts 20 (useDijkstra defaultGraph "A" "D"))) !! "D"%string
       = Some (Num (Fin z)) ∧ (z ≤ 4)%Z.
Proof.
  destruct (finalized_distance_is_shortest 8 defaultGraph "A" "D"
              (nexts 20 (useDijkstra defaultGraph "A" "D")) "D") as [H _].
  - apply defaultGraph_well_formed.
  - apply defaultGraph_plain_names.
  - apply defaultGraph_safe_costs.
  - apply includes_true. vm_compute. reflexivity.
  - apply reachable_nexts.
  - unfold visited. apply list_elem_of_filter. split.
    + vm_compute. reflexivity.
    + apply includes_true. vm_compute. reflexivity.
  - destruct (H _ defaultGraph_walk_A_D) as (z & Hz & Hle & _).
    exists z. split; [exact Hz|exact Hle].
Defined.

(** ** Termination *)

Lemma next_sets_done c :
  end_ c ∉ unvisted (state c) →
  (next c).2 = true ∧ isDone (state (next c).1) = true ∧
  unvisted (state (next c).1) = unvisted (state c) ∧
  distances (state (next c).1) = distances (state c).
Proof.
  intros Hend%includes_false. unfold next. rewrite Hend. simpl.
  by destruct (isDone (state c)) eqn:Hd.
Qed.

(** X3: Termination: on a graph with [safe_costs] and [plain_names] whose
    edges join vertices of the graph, when [end] can be reached from the
    vertex [start], one of the first |V| * (2 |E| + 2) + 1 calls of [next]
    returns [true], and [distances[end]] then is the cost of a shortest
    walk from [start] to [end]. *)
Theorem search_terminates bound g st en k :
  well_formed g → plain_names g → safe_costs bound g →
  st ∈ Object_keys (vertices g) →
  walk g st en k →
  ∃ n z,
    n ≤ length (Object_keys (vertices g)) * (2 * length (edges g) + 2) ∧
    (next (nexts n (useDijkstra g st en))).2 = true ∧
    distances (state (nexts n (useDijkstra g st en))) !! en = Some (Num (Fin z)) ∧
    walk g st en z ∧ ∀ k', walk g st en k' → (z ≤ k')%Z.
Proof.
  intros Hwf Hproto Hnn%safe_nonnegative Hst Hwalk.
  destruct (work_left_bound g st en Hwf Hnn Hst Hproto (useDijkstra g st en)
              (length (Object_keys (vertices g)) * (2 * length (edges g) + 2)))
    as (n & Hn & Hend).
  - by exists k.
  - constructor.
  - unfold work_left. simpl. lia.
  - pose proof (reachable_nexts g st en n) as Hr.
    destruct (finalized_shortest g st en _ en Hwf Hnn Hst Hproto Hr) with (k := k)
      as (z & Hz & _ & Hwz & Hmin); [|done|].
    { split; [by eapply walk_in_graph|done]. }
    exists n, z. split_and!; try done.
    apply next_sets_done. by destruct (nexts_refs n (useDijkstra g st en)) as (_ & -> & _).
Qed.

Lemma defaultGraph_walk_A_D_4 : walk defaultGraph "A" "D" 4.
Proof. exact defaultGraph_walk_A_D. Qed.

Lemma search_terminates_witness :
  ∃ n z, n ≤ 70 ∧
    (next (nexts n (useDijkstra defaultGraph "A" "D"))).2 = true ∧
    distances (state (nexts n (useDijkstra defaultGraph "A" "D"))) !! "D"%string
    = Some (Num (Fin z)).
Proof.
  destruct (search_terminates 8 defaultGraph "A" "D" 4) as (n & z & H1 & H2 & H3 & _).
  - apply defaultGraph_well_formed.
  - apply defaultGraph_plain_names.
  - apply defaultGraph_safe_costs.
  - apply includes_true. vm_compute. reflexivity.
  - apply defaultGraph_walk_A_D_4.
  - exists n, z. split_and!; [exact H1|exact H2|exact H3].
Defined.

(** ** [runToEnd] *)

Lemma reachable_done g st en c :
  reachable g st en c → isDone (state c) = true → en ∉ unvisted (state c).
Proof.
  induction 1 as [|c Hr IH]; [done|].
  destruct (reachable_refs _ _ _ _ Hr) as (_ & Hen & _).
  unfold next. destruct (includes (unvisted (state c)) (end_ c)) eqn:Hinc; simpl.
  - (* the search is running: [isDone] is not set and stays so *)
    apply includes_true in Hinc. rewrite Hen in Hinc.
    assert (Hd : isDone (state c) = false).
    { destruct (isDone (state c)); [by destruct IH|done]. }
    repeat (case_match; simpl); rewrite ?Hd; done.
  - apply includes_false in Hinc. rewrite Hen in Hinc.
    by destruct (isDone (state c)).
Qed.

Lemma runToEnd_stops fuel c :
  isDone (state (nexts fuel c)) = true →
  ∃ j, j ≤ fuel ∧ runToEnd fuel c = Some (nexts j c) ∧
       isDone (state (nexts j c)) = true.
Proof.
  revert c. induction fuel as [|fuel IH]; intros c Hd; simpl in *.
  - exists 0. by rewrite Hd.
  - destruct (isDone (state c)) eqn:Hc.
    + exists 0. split_and!; [lia|done|done].
    + destruct (IH _ Hd) as (j & Hj & Hrun & Hdj).
      exists (S j). split_and!; [lia|done|done].
Qed.

Lemma runToEnd_never fuel c :
  (∀ j, isDone (state (nexts j c)) = false) → runToEnd fuel c = None.
Proof.
  revert c. induction fuel as [|fuel IH]; intros c Hd; simpl.
  - pose proof (Hd 0) as H0. simpl in H0. by rewrite H0.
  - pose proof (Hd 0) as H0. simpl in H0. rewrite H0.
    apply IH. intros j. apply (Hd (S j)).
Qed.

(** X4: The page's [runToEnd] loop: on a graph with [safe_costs] and
    [plain_names] whose edges join vertices of the graph, when [end] can be
    reached from the vertex [start], the loop stops after at most
    |V| * (2 |E| + 2) + 1 rounds, in a state marked done in which
    [distances[end]] is the cost of a shortest walk from [start] to [end]. *)
Theorem runToEnd_finds_shortest bound g st en k :
  well_formed g → plain_names g → safe_costs bound g →
  st ∈ Object_keys (vertices g) →
  walk g st en k →
  ∃ fuel c z,
    fuel ≤ length (Object_keys (vertices g)) * (2 * length (edges g) + 2) + 1 ∧
    runToEnd fuel (useDijkstra g st en) = Some c ∧
    isDone (state c) = true ∧
    distances (state c) !! en = Some (Num (Fin z)) ∧
    walk g st en z ∧ ∀ k', walk g st en k' → (z ≤ k')%Z.
Proof.
  intros Hwf Hproto Hnn%safe_nonnegative Hst Hwalk.
  destruct (work_left_bound g st en Hwf Hnn Hst Hproto (useDijkstra g st en)
              (length (Object_keys (vertices g)) * (2 * length (edges g) + 2)))
    as (n & Hn & Hend); [by exists k|constructor|unfold work_left; simpl; lia|].
  destruct (runToEnd_stops (S n) (useDijkstra g st en)) as (j & Hj & Hrun & Hd).
  { rewrite nexts_S. apply next_sets_done.
    by destruct (nexts_refs n (useDijkstra g st en)) as (_ & -> & _). }
  pose proof (reachable_nexts g st en j) as Hr.
  destruct (finalized_shortest g st en _ en Hwf Hnn Hst Hproto Hr) with (k := k)
    as (z & Hz & _ & Hwz & Hmin); [|done|].
  { split; [by eapply walk_in_graph|]. by eapply reachable_done. }
  exists (S n), (nexts j (useDijkstra g st en)), z.
  split_and!; try done. lia.
Qed.

Lemma runToEnd_finds_shortest_witness :
  ∃ fuel c z,
    runToEnd fuel (useDijkstra defaultGraph "A" "D") = Some c ∧
    isDone (state c) = true ∧
    distances (state c) !! "D"%string = Some (Num (Fin z)).
Proof.
  destruct (runToEnd_finds_shortest 8 defaultGraph "A" "D" 4)
    as (fuel & c & z & _ & H1 & H2 & H3 & _).
  - apply defaultGraph_well_formed.
  - apply defaultGraph_plain_names.
  - apply defaultGraph_safe_costs.
  - apply includes_true. vm_compute. reflexivity.
  - apply defaultGraph_walk_A_D_4.
  - exists fuel, c, z. split_and!; [exact H1|exact H2|exact H3].
Defined.

(** ** An unreachable [end] *)

Lemma unreachable_stays g st en c :
  en ∈ Object_keys (vertices g) → en ≠ ""%string → (∀ k, ¬ walk g st en k) →
  reachable g st en c →
  en ∈ unvisted (state c) ∧ isDone (state c) = false.
Proof.
  intros Hen Hne Hno. induction 1 as [|c Hr [IH1 IH2]]; [done|].
  pose proof (reachable_sound _ _ _ _ Hr) as [_ Hs].
  destruct (reachable_refs _ _ _ _ Hr) as (_ & Hen' & Hg).
  pose proof (next_step c) as Hstep. rewrite Hen', Hg in Hstep.
  destruct Hstep; simpl; try done.
  split; [|done]. apply list_elem_of_filter. split; [|done].
  destruct (scan_spec (distances (state c)) (unvisted (state c)))
    as [[-> _]|(pre & post & m & z & _ & -> & Hm & _)]; simpl; [done|].
  intros ->. by apply (Hno z), Hs.
Qed.

(** X5: When [end] is a vertex other than the empty identifier and no walk leads
    from [start] to it, no call of [next] ever returns [true], [isDone] is
    never set, and the page's [runToEnd] loop does not stop, whatever the
    costs of the edges. *)
Theorem unreachable_end_never_finishes g st en n :
  en ∈ Object_keys (vertices g) → en ≠ ""%string → (∀ k, ¬ walk g st en k) →
  (next (nexts n (useDijkstra g st en))).2 = false ∧
  isDone (state (nexts n (useDijkstra g st en))) = false ∧
  runToEnd n (useDijkstra g st en) = None.
Proof.
  intros Hen Hne Hno.
  assert (Hall : ∀ j, en ∈ unvisted (state (nexts j (useDijkstra g st en))) ∧
                      isDone (state (nexts j (useDijkstra g st en))) = false).
  { intros j. apply (unreachable_stays g st en); try done. apply reachable_nexts. }
  split_and!.
  - destruct (Hall n) as [Hin _]. unfold next.
    destruct (nexts_refs n (useDijkstra g st en)) as (_ & Hen' & _).
    simpl in Hen'. rewrite Hen'. apply includes_true in Hin. rewrite Hin. simpl.
    repeat case_match; done.
  - apply Hall.
  - apply runToEnd_never. intros j. apply Hall.
Qed.

Lemma isolatedGraph_no_walk k : ¬ walk isolatedGraph "A" "B" k.
Proof.
  inversion 1 as [|v w k' e _ He _]. simpl in He. by apply elem_of_nil in He.
Qed.

Lemma unreachable_end_never_finishes_witness :
  (next (nexts 5 (useDijkstra isolatedGraph "A" "B"))).2 = false ∧
  runToEnd 5 (useDijkstra isolatedGraph "A" "B") = None.
Proof.
  destruct (unreachable_end_never_finishes isolatedGraph "A" "B" 5)
    as (H1 & _ & H3).
  - apply includes_true. vm_compute. reflexivity.
  - discriminate.
  - apply isolatedGraph_no_walk.
  - split; [exact H1|exact H3].
Defined.

(** ** The tree of predecessors *)

Lemma tree_path_walk g st s v z : tree_path g st s v z → walk g st v z.
Proof.
  induction 1 as [|p v z e0 _ IH _ _ He0 Ht]; [constructor|].
  by eapply walk_edge.
Qed.

Lemma tree_path_keep g st s s' w x z :
  tree_path g st s x z →
  (x ≠ w ∧ w ∈ unvisted s ∨ previous s' = previous s) →
  (∀ v, v ≠ w → previous s' !! v = previous s !! v) →
  (∀ p, p ∉ unvisted s → p ∉ unvisted s') →
  tree_path g st s' x z.
Proof.
  intros Hpath Hx Hprev Hunv.
  assert (Hl : ∀ v, (v ≠ w ∧ w ∈ unvisted s ∨ previous s' = previous s) →
                    previous s' !! v = previous s !! v).
  { intros v [[Hv _]| ->]; [by apply Hprev|done]. }
  induction Hpath as [Hroot|p v z e0 Hp IH Hv Hpu He0 Ht].
  - constructor. by rewrite Hl.
  - eapply tree_link; eauto.
    + apply IH. destruct Hx as [[_ Hw]|?]; [|by right].
      left. split; [|done]. by intros ->.
    + by rewrite Hl.
Qed.

Section Tree.
Variables (g : Graph) (st en : Id).
Hypothesis Hwf : well_formed g.
Hypothesis Hnn : nonnegative g.
Hypothesis Hst : st ∈ Object_keys (vertices g).
Hypothesis Hplain : plain_names g.

(** What a successful relaxation starts from. *)
Lemma relax_facts s v e :
  search_inv g st en s → en ∈ unvisted s → currentVertex s = Some v →
  currentEdge s = Some e →
  number_lt (number_add (to_number (distances s !! from e)) (Fin (cost e)))
            (nullish (distances s !! to e) Infinity) = true →
  to e ∈ unvisted s ∧ (from e ∉ unvisted s) ∧ to e ≠ st ∧
  (∃ e0, e0 ∈ edges g ∧ touches e0 (from e) (to e) ∧ cost e0 = cost e) ∧
  ∃ zc, distances s !! from e = Some (Num (Fin zc)) ∧
        number_add (to_number (distances s !! from e)) (Fin (cost e))
        = Fin (zc + cost e).
Proof.
  intros Hinv Hend HcV HcE Hlt. pose proof Hinv as [].
  specialize (si_live0 Hend). destruct si_live0.
  assert (Hpe : pending s e) by by right.
  pose proof (li_pending0 e Hpe) as Hcur. rewrite HcV in Hcur.
  injection Hcur as ->.
  destruct (si_pending0 e Hpe) as (e0 & He0 & Ht & Hcost).
  pose proof (Hnn e0 He0) as Hk. rewrite Hcost in Hk.
  destruct (number_lt_fin _ _ Hlt) as [z Hz].
  pose proof (to_number_fin _ _ _ _ si_clean0 Hz) as Hfrom.
  assert (Hdc : dist_of s (from e) = Fin (z - cost e)).
  { unfold dist_of. by rewrite Hfrom. }
  pose proof (walk_nonnegative _ _ _ _ Hnn (si_sound0 _ _ Hfrom)) as Hzc.
  assert (Hfar : ∀ u, finalized g s u →
                      number_le (dist_of s u) (dist_of s (from e)) = true).
  { destruct (li_current0 _ HcV) as [?|[_ ?]]; [done|congruence]. }
  assert (Hw : to e ∈ unvisted s).
  { destruct (decide (to e ∈ unvisted s)) as [|Hn]; [done|]. exfalso.
    assert (finalized g s (to e)) as Hf.
    { split; [|done]. destruct (Hwf e0 He0) as [? ?].
      destruct Ht as [[_ <-]|[_ <-]]; done. }
    pose proof (number_lt_add_le _ _ _ Hk (Hfar _ Hf)) as Hc.
    rewrite Hdc in Hc. rewrite Hz in Hlt.
    change (number_add (Fin (z - cost e)) (Fin (cost e)))
      with (Fin (z - cost e + cost e)) in Hc.
    replace (z - cost e + cost e)%Z with z in Hc by lia.
    unfold dist_of in Hc. congruence. }
  split_and!; try done.
  - by apply si_current0.
  - intros Heq. rewrite Heq, Hz in Hlt. fold (dist_of s st) in Hlt.
    apply number_le_fin_inv in si_start0 as (y & Hy & Hy0).
    rewrite Hy in Hlt. simpl in Hlt. apply bool_decide_eq_true in Hlt. lia.
  - by exists e0.
  - exists (z - cost e)%Z. split; [done|]. rewrite Hz. f_equal. lia.
Qed.

Lemma step_tree_inv s s' b :
  step g en s s' b → search_inv g st en s → tree_inv g st s → tree_inv g st s'.
Proof.
  intros Hstep Hinv [Hroot Htree].
  assert (Hsame : ∀ s0, previous s0 = previous s → distances s0 = distances s →
                        (∀ p, p ∉ unvisted s → p ∉ unvisted s0) →
                        tree_inv g st s0).
  { intros s0 Hp Hd Hu. split; [by rewrite Hp|]. intros x z Hx.
    rewrite Hd in Hx.
    apply (tree_path_keep g st s _ ""%string);
      [by apply Htree|by right|by intros; rewrite Hp|done]. }
  destruct Hstep as [| |Hend HcV| | |v e Hend HcV HcE Hlt|];
    try (by apply Hsame).
  - (* selection: [unvisted] shrinks, nothing else changes *)
    apply Hsame; [done|done|].
    simpl. intros p Hp [_ ?]%list_elem_of_filter. done.
  - (* relaxation: the target hangs below the vertex under expansion *)
    destruct (relax_facts s v e Hinv Hend HcV HcE Hlt)
      as (Hw & Hcur & Hwst & (e0 & He0 & Ht & Hcost) & zc & Hzc & Hnew).
    rewrite Hnew.
    rewrite (assign_insert (to e) (Some (from e)) (previous s)).
    2: { left. intros Heq. apply (plain_names_proto g Hplain). rewrite <- Heq.
         by apply (si_unvisted _ _ _ _ Hinv). }
    assert (Hkeep : ∀ d' x z, x ≠ to e → tree_path g st s x z →
              tree_path g st
                (set_currentEdge None
                   (set_previous (<[to e:=Some (from e)]> (previous s))
                      (set_distances d' s))) x z).
    { intros d' x z Hx Hpath.
      apply (tree_path_keep g st s _ (to e)); [done|by left| |done].
      intros y Hy. simpl. by rewrite lookup_insert_ne. }
    split.
    + simpl. by rewrite lookup_insert_ne.
    + intros x z. simpl. destruct (decide (x = to e)) as [->|Hx].
      * rewrite lookup_insert_eq. intros [= <-]. rewrite <- Hcost.
        eapply tree_link; eauto.
        -- apply Hkeep; [by intros Heq; rewrite Heq in Hcur|by apply Htree].
        -- simpl. by rewrite lookup_insert_eq.
      * rewrite lookup_insert_ne by done. intros Hd. by apply Hkeep, Htree.
Qed.

Lemma reachable_tree_inv c :
  reachable g st en c → tree_inv g st (state c).
Proof.
  induction 1 as [|c Hr IH].
  - split; simpl; [by rewrite lookup_singleton_eq|].
    intros v z. rewrite initDistances_lookup.
    repeat case_decide; intros [= <-]. subst. constructor. simpl.
    by rewrite lookup_singleton_eq.
  - destruct (reachable_refs _ _ _ _ Hr) as (_ & Hen & Hg).
    pose proof (next_step c) as Hs. rewrite Hen, Hg in Hs.
    eapply step_tree_inv; eauto. by apply reachable_search_inv.
Qed.

(** A recorded predecessor has a finite distance. *)
Lemma reachable_predecessor_finite c v p :
  reachable g st en c → previous (state c) !! v = Some (Some p) →
  ∃ z, distances (state c) !! p = Some (Num (Fin z)).
Proof.
  intros Hr. revert v p. induction Hr as [|c Hr IH]; intros v p.
  - simpl. destruct (decide (v = st)) as [->|Hne].
    + by rewrite lookup_singleton_eq.
    + by rewrite lookup_singleton_ne.
  - pose proof (reachable_clean _ _ _ _ Hr) as Hc.
    destruct (reachable_refs _ _ _ _ Hr) as (_ & Hen & Hg).
    pose proof (next_step c) as Hs. rewrite Hen, Hg in Hs.
    destruct Hs as [| | | | |w e ? ? HcE Hlt ?|]; simpl; try apply IH.
    destruct (number_lt_fin _ _ Hlt) as [z Hz]. rewrite Hz.
    pose proof (to_number_fin _ _ _ _ Hc Hz) as Hfrom.
    assert (Hkeep : ∀ q y, distances (state c) !! q = Some (Num (Fin y)) →
              ∃ y', <[to e:=Num (Fin z)]> (distances (state c)) !! q
                    = Some (Num (Fin y'))).
    { intros q y Hq. destruct (decide (q = to e)) as [->|Hq'].
      - exists z. by rewrite lookup_insert_eq.
      - exists y. by rewrite lookup_insert_ne. }
    intros [[-> [= ->]]|Hv]%lookup_assign.
    + by eapply Hkeep.
    + destruct (IH _ _ Hv) as [y Hy]. by eapply Hkeep.
Qed.

End Tree.

(** X6: The predecessors form a tree: on a graph with [safe_costs] and
    [plain_names] whose edges join vertices of the graph and whose vertices
    include [start], in every state reachable by calls of [next],
    [previous[start]] is [null], and for every vertex with a finite
    distance the chain of [previous] entries leads back to [start] through
    finalized vertices, along edges of the graph whose costs add up to that
    distance. *)
Theorem previous_is_a_tree bound g st en c :
  well_formed g → plain_names g → safe_costs bound g →
  st ∈ Object_keys (vertices g) →
  reachable g st en c →
  previous (state c) !! st = Some None ∧
  ∀ v z, distances (state c) !! v = Some (Num (Fin z)) →
         tree_path g st (state c) v z.
Proof.
  intros Hwf Hproto Hnn%safe_nonnegative Hst Hr.
  by apply (reachable_tree_inv g st en).
Qed.

Lemma previous_is_a_tree_witness :
  tree_path defaultGraph "A" (state (nexts 20 (useDijkstra defaultGraph "A" "D"))) "D" 4.
Proof.
  apply (previous_is_a_tree 8 defaultGraph "A" "D").
  - apply defaultGraph_well_formed.
  - apply defaultGraph_plain_names.
  - apply defaultGraph_safe_costs.
  - apply includes_true. vm_compute. reflexivity.
  - apply reachable_nexts.
  - vm_compute. reflexivity.
Defined.

(** ** Sessions of [next], [prev] and [reset] *)

Lemma next_state_indep c1 c2 :
  state c1 = state c2 → end_ c1 = end_ c2 → graph c1 = graph c2 →
  state (next c1).1 = state (next c2).1.
Proof.
  intros Hs He Hg. unfold next, batch, commit, set_state, set_history. simpl.
  rewrite Hs, He, Hg. repeat case_match; done.
Qed.

Lemma forward_state_next c :
  forward_state (graph c) (start c) (end_ c) (state c) →
  forward_state (graph c) (start c) (end_ c) (state (next c).1).
Proof.
  intros (c' & Hr & Hs). exists (next c').1. split; [by constructor|].
  destruct (reachable_refs _ _ _ _ Hr) as (_ & He & Hg).
  by apply next_state_indep.
Qed.

Lemma forward_state_clean g st en s : forward_state g st en s → clean (distances s).
Proof. intros (c & Hr & <-). by eapply reachable_clean. Qed.

Lemma snapshot_restore s :
  clean (distances s) →
  set_distances (denull <$> distances (snapshot (snapshot s))) (snapshot (snapshot s)) = s.
Proof.
  intros Hc. destruct s as [u d p cv ce el dn]. unfold snapshot, set_distances.
  simpl in *. by rewrite denull_snapshot.
Qed.

Lemma restore_clean s :
  clean (distances s) → set_distances (denull <$> distances s) s = s.
Proof.
  intros Hc. destruct s as [u d p cv ce el dn]. unfold set_distances.
  simpl in *. by rewrite denull_clean.
Qed.

Lemma next_history_inv c : history_inv c → history_inv (next c).1.
Proof.
  intros (Ht & Hl & Hf & Hu).
  pose proof (forward_state_next c Hf) as Hf'.
  destruct (next_refs c) as (Hst & Hen & Hg).
  destruct (next_commits c) as [Heq|[s' Heq]]; rewrite Heq in *.
  { done. }
  unfold history_inv. simpl in *. split_and!; try done.
  constructor; [|done]. exists (state c). by rewrite Hl.
Qed.

Lemma prev_history_inv c : history_inv c → history_inv (prev c).
Proof.
  intros (Ht & Hl & Hf & Hu). rewrite prev_eq. unfold undo.
  destruct (undoStack (history c)) as [|r rest] eqn:Hstack;
    cbn [state start end_ graph history lastRecord undoStack tracking].
  - rewrite restore_clean by by eapply forward_state_clean.
    unfold history_inv. simpl. by rewrite Hstack.
  - apply Forall_cons in Hu as [(s & Hs & ->) Hrest].
    rewrite snapshot_restore by by eapply forward_state_clean.
    unfold history_inv. simpl. done.
Qed.

Lemma reset_eq g st en c :
  tracking (history c) = true → reset g st en c = useDijkstra g st en.
Proof.
  intros Ht. unfold reset, watched, clear, commit, set_state, set_history.
  simpl. rewrite Ht. simpl. done.
Qed.

Lemma init_history_inv g st en : history_inv (useDijkstra g st en).
Proof.
  unfold history_inv. simpl. split_and!; try done.
  exists (useDijkstra g st en). split; [constructor|done].
Qed.

Lemma session_history_inv c : session c → history_inv c.
Proof.
  induction 1 as [g st en|c _ IH|c _ IH|g st en c _ IH].
  - apply init_history_inv.
  - by apply next_history_inv.
  - by apply prev_history_inv.
  - destruct IH as (Ht & _). rewrite reset_eq by done. apply init_history_inv.
Qed.





(** X11: [reset] starts afresh: in a session, [reset] yields exactly the
    composable that [useDijkstra] returns for the new graph, start and end,
    with an empty history, so that a following [prev] changes nothing. *)
Theorem reset_starts_afresh g st en c :
  session c →
  reset g st en c = useDijkstra g st en ∧
  prev (reset g st en c) = reset g st en c.
Proof.
  intros (Ht & _)%session_history_inv. rewrite reset_eq by done.
  split; [done|]. apply prev_initial.
Qed.

Lemma reset_starts_afresh_witness :
  reset pathGraph "A" "C" (nexts 5 (useDijkstra defaultGraph "A" "D"))
  = useDijkstra pathGraph "A" "C".
Proof.
  destruct (reset_starts_afresh pathGraph "A" "C"
              (nexts 5 (useDijkstra defaultGraph "A" "D"))) as [H _].
  - do 5 apply session_next. apply session_init.
  - exact H.
Defined.

(** ** Tree edges of the renderer

    The properties below go through the equality of keys and the symmetry
    of [edgeKey]; they do not depend on which of two identifiers the
    comparison puts first. *)

Lemma edgeKey_sym a b : edgeKey a b = edgeKey b a.
Proof.
  unfold edgeKey, String.ltb.
  rewrite (String.compare_antisym b a).
  destruct (String.compare a b) eqn:E; simpl; try done.
  apply String.compare_eq_iff in E. by subst.
Qed.

Lemma tree_edges_elem (prev : gmap Id (option Id)) x :
  x ∈ buildShortestTreeEdges (Some prev) ↔
  ∃ v p, prev !! v = Some (Some p) ∧ p ≠ ""%string ∧ x = edgeKey v p.
Proof.
  unfold buildShortestTreeEdges.
  assert (H : ∀ l : list (Id * option Id),
    x ∈ foldr (λ vp set,
                 match vp.2 with
                 | Some p => if bool_decide (p = ""%string) then set
                             else {[ edgeKey vp.1 p ]} ∪ set
                 | None => set
                 end) (∅ : gset string) l ↔
    ∃ v p, (v, Some p) ∈ l ∧ p ≠ ""%string ∧ x = edgeKey v p).
  { induction l as [|[v [p|]] l IH]; simpl.
    - split; [set_solver|]. intros (v & p & Hin & _). by apply elem_of_nil in Hin.
    - case_bool_decide as Hp.
      + rewrite IH. split.
        * intros (v' & p' & ? & ? & ?). exists v', p'. split_and!; try done. by right.
        * intros (v' & p' & [[= -> ->]|?]%elem_of_cons & ? & ?); [done|].
          by exists v', p'.
      + rewrite elem_of_union, elem_of_singleton, IH. split.
        * intros [->|(v' & p' & ? & ? & ?)].
          -- exists v, p. split_and!; try done. by left.
          -- exists v', p'. split_and!; try done. by right.
        * intros (v' & p' & [[= -> ->]|?]%elem_of_cons & ? & ?); [by left|].
          right. by exists v', p'.
    - rewrite IH. split.
      + intros (v' & p' & ? & ? & ?). exists v', p'. split_and!; try done. by right.
      + intros (v' & p' & [[=]|?]%elem_of_cons & ? & ?). by exists v', p'. }
  rewrite H. split; intros (v & p & Hin & ? & ?); exists v, p; split_and!;
    try done; by apply elem_of_map_to_list.
Qed.

(** X14: The renderer marks an edge as a tree edge exactly when its key is the key
    of some vertex and its predecessor, the predecessor being neither [null]
    nor the empty string; the key does not depend on the direction, so an
    edge between a vertex and its predecessor is marked however it is
    stored.  Without a [previous] nothing is marked. *)
Theorem tree_edges_marked (prev : gmap Id (option Id)) e :
  (isTreeEdge (buildShortestTreeEdges (Some prev)) e = true ↔
   ∃ v p, prev !! v = Some (Some p) ∧ p ≠ ""%string ∧
          edgeKey (from e) (to e) = edgeKey v p) ∧
  (∀ v p, prev !! v = Some (Some p) → p ≠ ""%string → touches e p v →
          isTreeEdge (buildShortestTreeEdges (Some prev)) e = true) ∧
  isTreeEdge (buildShortestTreeEdges None) e = false.
Proof.
  assert (Hiff : isTreeEdge (buildShortestTreeEdges (Some prev)) e = true ↔
    ∃ v p, prev !! v = Some (Some p) ∧ p ≠ ""%string ∧
           edgeKey (from e) (to e) = edgeKey v p).
  { unfold isTreeEdge. rewrite bool_decide_eq_true. apply tree_edges_elem. }
  split_and!; [done| |].
  - intros v p Hv Hp Ht. apply Hiff. exists v, p. split_and!; try done.
    destruct Ht as [[-> ->]|[-> ->]]; [apply edgeKey_sym|done].
  - unfold isTreeEdge. simpl. apply bool_decide_eq_false. set_solver.
Qed.

Lemma reachable_previous_edge g st en c v p :
  reachable g st en c → previous (state c) !! v = Some (Some p) →
  ∃ e0, e0 ∈ edges g ∧ touches e0 p v.
Proof.
  intros Hr. revert v p. induction Hr as [|c Hr IH]; intros v p.
  - simpl. destruct (decide (v = st)) as [->|Hne].
    + by rewrite lookup_singleton_eq.
    + by rewrite lookup_singleton_ne.
  - pose proof (reachable_sound _ _ _ _ Hr) as [HP _].
    destruct (reachable_refs _ _ _ _ Hr) as (_ & Hen & Hg).
    pose proof (next_step c) as Hs. rewrite Hen, Hg in Hs.
    destruct Hs as [| | | | |w e ? ? HcE ? ?|]; simpl; try apply IH.
    intros [[-> [= ->]]|Hv]%lookup_assign; [|by eapply IH].
    destruct (HP e) as (e0 & He0 & Ht & _); [by right|]. by exists e0.
Qed.

(** X15: Every predecessor the search records lies across an edge of the graph,
    and the renderer marks that edge as a tree edge, in whichever direction
    it is stored, unless the predecessor is the empty identifier. *)
Theorem predecessor_links_are_marked g st en c v p :
  reachable g st en c →
  previous (state c) !! v = Some (Some p) →
  ∃ e0, e0 ∈ edges g ∧ touches e0 p v ∧
        (p ≠ ""%string →
         isTreeEdge (buildShortestTreeEdges (Some (previous (state c)))) e0 = true).
Proof.
  intros Hr Hv. destruct (reachable_previous_edge _ _ _ _ _ _ Hr Hv) as (e0 & He0 & Ht).
  exists e0. split_and!; try done. intros Hp.
  unfold isTreeEdge. apply bool_decide_eq_true, tree_edges_elem.
  exists v, p. split_and!; try done.
  destruct Ht as [[-> ->]|[-> ->]]; [apply edgeKey_sym|done].
Qed.

Lemma predecessor_links_are_marked_witness :
  ∃ e0, e0 ∈ edges defaultGraph ∧ touches e0 "B" "D".
Proof.
  destruct (predecessor_links_are_marked defaultGraph "A" "D"
              (nexts 20 (useDijkstra defaultGraph "A" "D")) "D" "B")
    as (e0 & H1 & H2 & _).
  - apply reachable_nexts.
  - vm_compute. reflexivity.
  - exists e0. split; [exact H1|exact H2].
Defined.

(** X12: What a page shows after any calls of [next], [prev] and [reset]: on a
    graph with [safe_costs] and [plain_names] whose edges join vertices of
    the graph and whose vertices include [start], every vertex listed as
    visited holds in [distances] the cost of a shortest walk from [start],
    whenever a walk leads to it. *)
Theorem session_distances_are_shortest bound c v k :
  session c →
  well_formed (graph c) → plain_names (graph c) → safe_costs bound (graph c) →
  start c ∈ Object_keys (vertices (graph c)) →
  v ∈ visited c → walk (graph c) (start c) v k →
  ∃ z, distances (state c) !! v = Some (Num (Fin z)) ∧ (z ≤ k)%Z ∧
       walk (graph c) (start c) v z ∧
       ∀ k', walk (graph c) (start c) v k' → (z ≤ k')%Z.
Proof.
  intros (_ & _ & (c' & Hr & Hs) & _)%session_history_inv
         Hwf Hproto Hnn%safe_nonnegative Hst Hv Hwalk.
  rewrite <- Hs. apply (finalized_shortest _ _ (end_ c)); try done.
  rewrite Hs. unfold visited in Hv.
  apply list_elem_of_filter in Hv as [Hv1%includes_false Hv2]. by split.
Qed.

Lemma session_distances_are_shortest_witness :
  ∃ z, distances (state (next (prev (nexts 20 (useDijkstra defaultGraph "A" "D")))).1)
         !! "D"%string = Some (Num (Fin z)) ∧ (z ≤ 4)%Z.
Proof.
  destruct (session_distances_are_shortest 8
              (next (prev (nexts 20 (useDijkstra defaultGraph "A" "D")))).1 "D" 4)
    as (z & Hz & Hle & _).
  - apply session_next, session_prev. do 20 apply session_next. apply session_init.
  - apply defaultGraph_well_formed.
  - apply defaultGraph_plain_names.
  - apply defaultGraph_safe_costs.
  - apply includes_true. vm_compute. reflexivity.
  - unfold visited. apply list_elem_of_filter. split.
    + vm_compute. reflexivity.
    + apply includes_true. vm_compute. reflexivity.
  - apply defaultGraph_walk_A_D_4.
  - exists z. split; [exact Hz|exact Hle].
Defined.

(** ** The path drawn back from the end *)

Lemma path_loop_more printed fuel fuel' prev cur acc r :
  path_loop printed fuel prev cur acc = Some r → fuel ≤ fuel' →
  path_loop printed fuel' prev cur acc = Some r.
Proof.
  revert fuel' cur acc. induction fuel as [|fuel IH]; intros fuel' cur acc Hr Hle.
  - destruct fuel'; simpl in *; repeat case_match; done.
  - destruct fuel' as [|fuel']; [lia|]. simpl in *.
    repeat case_match; try done; (apply IH; [done|lia]).
Qed.

(** As long as the walk back meets recorded vertices only, every key it
    adds is the key of a vertex and its predecessor. *)
Lemma path_loop_tree printed fuel prev cur acc r :
  (∀ v p, prev !! v = Some (Some p) → p ≠ ""%string → is_Some (prev !! p)) →
  (cur ∈ Object_prototype → is_Some (prev !! cur)) →
  path_loop printed fuel prev cur acc = Some r →
  ∀ x, x ∈ r → x ∈ acc ∨ x ∈ buildShortestTreeEdges (Some prev).
Proof.
  intros Hrec. revert cur acc.
  induction fuel as [|fuel IH]; intros cur acc Hcur Hr x Hx; simpl in Hr.
  - case_bool_decide as Hc; [injection Hr as <-; by left|].
    destruct (prev !! cur) as [[p|]|] eqn:Hp.
    + case_bool_decide; [injection Hr as <-; by left|done].
    + injection Hr as <-; by left.
    + case_bool_decide as Hin; [|injection Hr as <-; by left].
      by destruct (Hcur Hin).
  - case_bool_decide as Hc; [injection Hr as <-; by left|].
    destruct (prev !! cur) as [[p|]|] eqn:Hp.
    + case_bool_decide as Hp'; [injection Hr as <-; by left|].
      destruct (IH _ _ (λ _, Hrec _ _ Hp Hp') Hr x Hx)
        as [[->%elem_of_singleton|?]%elem_of_union|?];
        [right|by left|by right].
      apply tree_edges_elem. by exists cur, p.
    + injection Hr as <-; by left.
    + case_bool_decide as Hin; [|injection Hr as <-; by left].
      by destruct (Hcur Hin).
Qed.

Lemma path_loop_terminates printed g st s p z acc :
  tree_path g st s p z → ∃ fuel r, path_loop printed fuel (previous s) p acc = Some r.
Proof.
  intros Hpath. revert acc.
  induction Hpath as [Hroot|p v z e0 _ IH Hv _ _ _]; intros acc.
  - exists 0, acc. simpl. rewrite Hroot. by case_bool_decide.
  - destruct (decide (v = ""%string)) as [Hv0|Hv0].
    { exists 0, acc. simpl. by rewrite bool_decide_eq_true_2. }
    destruct (decide (p = ""%string)) as [Hp0|Hp0].
    { exists 0, acc. simpl. rewrite bool_decide_eq_false_2 by done.
      rewrite Hv. by rewrite bool_decide_eq_true_2. }
    destruct (IH ({[ edgeKey v p ]} ∪ acc)) as (fuel & r & Hr).
    exists (S fuel), r. simpl. rewrite bool_decide_eq_false_2 by done.
    rewrite Hv. by rewrite bool_decide_eq_false_2.
Qed.

Lemma tree_path_recorded g st s v z :
  tree_path g st s v z → is_Some (previous s !! v).
Proof. destruct 1; eauto. Qed.

(** X16: The walk back along [previous] that the renderer makes from an end
    vertex comes to a stop: on a graph with [safe_costs] and [plain_names]
    whose edges join vertices of the graph and whose vertices include
    [start], in every state reachable by calls of [next] and for every
    [endId] that is no name of [Object.prototype], some number of rounds
    suffices for [buildPathEdgesFromEnd], and every key it returns is the
    key of a tree edge. *)
Theorem path_from_end_stops printed bound g st en c endId :
  well_formed g → plain_names g → safe_costs bound g →
  st ∈ Object_keys (vertices g) →
  reachable g st en c →
  (∀ v, endId = Some v → v ∉ Object_prototype) →
  ∃ fuel keys,
    buildPathEdgesFromEnd printed fuel endId (Some (previous (state c))) = Some keys ∧
    (∀ fuel', fuel ≤ fuel' →
       buildPathEdgesFromEnd printed fuel' endId (Some (previous (state c)))
       = Some keys) ∧
    keys ⊆ buildShortestTreeEdges (Some (previous (state c))).
Proof.
  intros Hwf Hproto Hnn%safe_nonnegative Hst Hr Hend.
  pose proof (reachable_tree_inv g st en Hwf Hnn Hst Hproto c Hr) as [_ Htree].
  assert (Hrec : ∀ v p, previous (state c) !! v = Some (Some p) → p ≠ ""%string →
                        is_Some (previous (state c) !! p)).
  { intros v p Hv _.
    destruct (reachable_predecessor_finite g st en c v p Hr Hv) as [z Hz].
    by eapply tree_path_recorded, Htree. }
  assert (Hstop : ∃ fuel keys,
    buildPathEdgesFromEnd printed fuel endId (Some (previous (state c))) = Some keys).
  { destruct endId as [v|]; [|by exists 0, ∅]. simpl.
    destruct (previous (state c) !! v) as [[p|]|] eqn:Hv.
    - destruct (reachable_predecessor_finite g st en c v p Hr Hv) as [z Hz].
      destruct (path_loop_terminates printed g st (state c) p z
                  ({[ edgeKey v p ]} ∪ ∅) (Htree _ _ Hz)) as (fuel & r & Hloop).
      destruct (decide (v = ""%string)) as [Hv0|Hv0].
      { exists 0, ∅. simpl. by rewrite bool_decide_eq_true_2. }
      destruct (decide (p = ""%string)) as [Hp0|Hp0].
      { exists 0, ∅. simpl. rewrite bool_decide_eq_false_2 by done.
        rewrite Hv. by rewrite bool_decide_eq_true_2. }
      exists (S fuel), r. simpl. rewrite bool_decide_eq_false_2 by done.
      rewrite Hv. by rewrite bool_decide_eq_false_2.
    - exists 0, ∅. simpl. rewrite Hv. by case_bool_decide.
    - exists 0, ∅. simpl. rewrite Hv. case_bool_decide; [done|].
      case_bool_decide as Hin; [|done].
      by destruct (Hend v eq_refl). }
  destruct Hstop as (fuel & keys & Hrun). exists fuel, keys. split_and!.
  - done.
  - intros fuel' Hle. destruct endId as [v|]; [|done]. simpl in *.
    by eapply path_loop_more.
  - destruct endId as [v|]; simpl in Hrun.
    + intros x Hx.
      destruct (path_loop_tree _ _ _ _ _ _ Hrec
                  (λ Hin, False_ind _ (Hend v eq_refl Hin)) Hrun x Hx)
        as [?|?]; [|done].
      set_solver.
    + injection Hrun as <-. set_solver.
Qed.

Lemma path_from_end_stops_witness :
  ∃ fuel keys,
    buildPathEdgesFromEnd (λ _, "[object Object]"%string) fuel (Some "D"%string)
      (Some (previous (state (nexts 20 (useDijkstra defaultGraph "A" "D")))))
    = Some keys.
Proof.
  destruct (path_from_end_stops (λ _, "[object Object]"%string) 8
              defaultGraph "A" "D"
              (nexts 20 (useDijkstra defaultGraph "A" "D")) (Some "D"%string))
    as (fuel & keys & H & _).
  - apply defaultGraph_well_formed.
  - apply defaultGraph_plain_names.
  - apply defaultGraph_safe_costs.
  - apply includes_true. vm_compute. reflexivity.
  - apply reachable_nexts.
  - intros v [= <-]. apply includes_false. reflexivity.
  - exists fuel, keys. exact H.
Defined.
